(** * interview-template: the configuration module and the utility functions

    Shallow embedding of [src/config.ts] (the exported [config] object) and of
    [src/utils.ts] as printed in SETUP_GUIDE.md ([add], [isValidEmail]).

    - A JavaScript string is a sequence of UTF-16 code units: [list N].
    - [process.env] is a finite map from variable names to strings; reading a
      variable that is not set gives [undefined], here [None].
    - A JavaScript number is an IEEE 754 binary64 value: [spec_float] at
      precision 53 and maximal exponent 1024, with the operations of the
      Standard Library's executable specification of binary floating point. *)

From Stdlib Require Import ZArith NArith Lia Bool List String Ascii.
From Stdlib Require Import SpecFloat.
From stdpp Require Import gmap strings list.

Local Open Scope Z_scope.

(** ** Strings *)

Module JsString.

(** The code units of an ASCII literal. *)
Definition str (s : string) : list N :=
  map N_of_ascii (list_ascii_of_string s).

(** WhiteSpace and LineTerminator code points (ECMA-262, 12.2 and 12.3):
    what [\s] matches and what [parseInt] skips at the start. *)
Definition isWhiteSpace (c : N) : bool :=
  ((9 <=? c) && (c <=? 13) || (c =? 32) || (c =? 160) || (c =? 5760)
   || (8192 <=? c) && (c <=? 8202)
   || (c =? 8232) || (c =? 8233) || (c =? 8239) || (c =? 8287)
   || (c =? 12288) || (c =? 65279))%N.

(** TrimString(string, start) *)
Fixpoint trimStart (s : list N) : list N :=
  match s with
  | c :: s' => if isWhiteSpace c then trimStart s' else s
  | [] => []
  end.

End JsString.

Import JsString.

(** ** Numbers *)

Module Number.

Definition prec : Z := 53.
Definition emax : Z := 1024.

Abbreviation number := spec_float.

Definition NaN : number := S754_nan.

Definition isNaN (x : number) : bool :=
  match x with S754_nan => true | _ => false end.

(** The Number value for a mathematical integer: the nearest binary64
    value, ties to even. *)
Definition ofZ (z : Z) : number := binary_normalize prec emax z 0 false.

(** [x + y] on numbers. *)
Definition plus (x y : number) : number := SFadd prec emax x y.

(** [x === y] on numbers: NaN differs from everything, the two zeros are
    equal. *)
Definition strictEquals (x y : number) : bool := SFeqb x y.

(** A number is a [valid] [spec_float]: a zero, an infinity, NaN, or a
    finite value whose mantissa and exponent are the canonical ones. *)
Definition valid (x : number) : Prop := valid_binary prec emax x = true.

(** The value of a zero or finite number in units of [2 ^ emin], the least
    positive number ([Number.MIN_VALUE]): an integer. *)
Definition scaled (x : number) : option Z :=
  match x with
  | S754_zero _ => Some 0
  | S754_finite s m e =>
      Some (cond_Zopp s (Z.pos m) * 2 ^ (e - SpecFloat.emin prec emax))
  | S754_infinity _ | S754_nan => None
  end.

(** [n] units of [2 ^ emin] is the value of a number: no rounding needed. *)
Definition representable (n : Z) : Prop :=
  exists r : number, valid r /\ scaled r = Some n.

(** 0.5, 0.25 and 0.125 *)
Definition half : number := S754_finite false 4503599627370496 (-53).
Definition quarter : number := S754_finite false 4503599627370496 (-54).
Definition eighth : number := S754_finite false 4503599627370496 (-55).

(** Integers whose sums are computed without rounding. *)
Definition MAX_SAFE_INTEGER : Z := 2 ^ 53 - 1.

Definition isSafe (z : Z) : Prop :=
  - MAX_SAFE_INTEGER <= z <= MAX_SAFE_INTEGER.

End Number.

Import Number.

(** ** parseInt *)

Module ParseInt.

(** The value of a code unit as a digit: [0-9], [a-z], [A-Z]. *)
Definition digitValue (c : N) : option Z :=
  if ((48 <=? c) && (c <=? 57))%N then Some (Z.of_N c - 48)
  else if ((97 <=? c) && (c <=? 122))%N then Some (Z.of_N c - 87)
  else if ((65 <=? c) && (c <=? 90))%N then Some (Z.of_N c - 55)
  else None.

Definition radixDigit (R : Z) (c : N) : option Z :=
  match digitValue c with
  | Some d => if d <? R then Some d else None
  | None => None
  end.

(** The longest prefix of radix-R digits, as digit values. *)
Fixpoint digitPrefix (R : Z) (s : list N) : list Z :=
  match s with
  | c :: s' =>
      match radixDigit R c with
      | Some d => d :: digitPrefix R s'
      | None => []
      end
  | [] => []
  end.

(** The integer written by a sequence of digits in radix R. *)
Definition mathInt (R : Z) (ds : list Z) : Z :=
  fold_left (fun acc d => acc * R + d) ds 0.

Definition isSign (c : N) : bool := ((c =? 43) || (c =? 45))%N.

Definition stripSign (s : list N) : list N :=
  match s with
  | c :: s' => if isSign c then s' else s
  | [] => []
  end.

Definition signOf (s : list N) : Z :=
  match s with
  | c :: _ => if (c =? 45)%N then -1 else 1
  | [] => 1
  end.

Definition stripHexPrefix (s : list N) : option (list N) :=
  match s with
  | 48%N :: x :: s' => if ((x =? 120) || (x =? 88))%N then Some s' else None
  | _ => None
  end.

(** [parseInt(string, radix)] (ECMA-262, 19.2.5), [radix] already
    converted to a 32-bit integer.  The integer is converted exactly; an
    engine may replace the digits after the twentieth by zeros. *)
Definition parseInt (string : list N) (radix : Z) : number :=
  let trimmed := trimStart string in
  let sign := signOf trimmed in
  let body := stripSign trimmed in
  if (radix =? 0) || (2 <=? radix) && (radix <=? 36) then
    let stripPrefix := (radix =? 0) || (radix =? 16) in
    let R := if radix =? 0 then 10 else radix in
    let '(R, body) :=
      match (if stripPrefix then stripHexPrefix body else None) with
      | Some body' => (16, body')
      | None => (R, body)
      end in
    match digitPrefix R body with
    | [] => NaN
    | ds =>
        let n := mathInt R ds in
        if n =? 0 then S754_zero (sign <? 0) else ofZ (sign * n)
    end
  else NaN.

End ParseInt.

Import ParseInt.

(** ** src/config.ts *)

Module Config.

(** The object exported as [config]. *)
Record Config : Type := mkConfig {
  nodeEnv : list N;
  port : number;
  databaseUrl : option (list N);
  redisUrl : option (list N);
}.

(** Evaluation against [process.env]: a computation receives the
    environment and hands it on together with its result. *)
Definition Eval (A : Type) : Type :=
  gmap string (list N) -> A * gmap string (list N).

Definition ret {A} (a : A) : Eval A := fun env => (a, env).

Definition bind {A B} (m : Eval A) (f : A -> Eval B) : Eval B :=
  fun env => let '(a, env') := m env in f a env'.

Notation "'let*' x ':=' m 'in' k" := (bind m (fun x => k))
  (at level 10, x name, k at level 200).

(** [process.env.NAME] *)
Definition getenv (name : string) : Eval (option (list N)) :=
  fun env => (env !! name, env).

(** [value || fallback] on an optional string: [undefined] and the empty
    string are falsy. *)
Definition orElse (value : option (list N)) (fallback : list N) : list N :=
  match value with
  | Some (c :: s) => c :: s
  | Some [] | None => fallback
  end.

(** The object literal, its properties evaluated in source order. *)
Definition evalConfig : Eval Config :=
  let* NODE_ENV := getenv "NODE_ENV" in
  let* PORT := getenv "PORT" in
  let* DATABASE_URL := getenv "DATABASE_URL" in
  let* REDIS_URL := getenv "REDIS_URL" in
  ret {| nodeEnv := orElse NODE_ENV (str "development");
         port := parseInt (orElse PORT (str "3000")) 10;
         databaseUrl := DATABASE_URL;
         redisUrl := REDIS_URL |}.

(** [config] for a given content of [process.env] (as it stands once
    [dotenv.config()] has run). *)
Definition config (env : gmap string (list N)) : Config :=
  fst (evalConfig env).

End Config.

Import Config.

(** ** Regular expressions, as far as [emailRegex] needs them *)

Module RegExp.

Inductive ClassAtom : Type :=
| ClassWhiteSpace           (* \s *)
| ClassChar (c : N).        (* a literal code unit *)

Inductive Atom : Type :=
| PatternCharacter (c : N)                            (* @  \. *)
| CharacterClass (invert : bool) (cs : list ClassAtom). (* [...] [^...] *)

Inductive Quantifier : Type :=
| Once
| Plus.                     (* greedy + *)

Inductive Term : Type :=
| AssertBegin               (* ^ *)
| AssertEnd                 (* $ *)
| Quantified (a : Atom) (q : Quantifier).

Definition classAtomMatches (ca : ClassAtom) (ch : N) : bool :=
  match ca with
  | ClassWhiteSpace => isWhiteSpace ch
  | ClassChar c => (ch =? c)%N
  end.

Definition atomMatches (a : Atom) (ch : N) : bool :=
  match a with
  | PatternCharacter c => (ch =? c)%N
  | CharacterClass invert cs =>
      xorb invert (existsb (fun ca => classAtomMatches ca ch) cs)
  end.

(** A matcher is run at a position of the input, given by the number of
    code units before it and the code units from it on, with the
    continuation that matches the rest of the pattern.

    Greedy [+]: one code unit is required; then another repetition is
    tried before the continuation. *)
Fixpoint repeatPlus (p : N -> bool) (k : nat -> list N -> bool)
    (index : nat) (rest : list N) : bool :=
  match rest with
  | [] => false
  | ch :: rest' =>
      p ch && (repeatPlus p k (S index) rest' || k (S index) rest')
  end.

(** The terms of one alternative, left to right (no flags: [^] and [$]
    are the two ends of the input). *)
Fixpoint matchTerms (ts : list Term) (index : nat) (rest : list N) : bool :=
  match ts with
  | [] => true
  | AssertBegin :: ts' => Nat.eqb index 0 && matchTerms ts' index rest
  | AssertEnd :: ts' =>
      match rest with
      | [] => matchTerms ts' index rest
      | _ :: _ => false
      end
  | Quantified a Once :: ts' =>
      match rest with
      | [] => false
      | ch :: rest' => atomMatches a ch && matchTerms ts' (S index) rest'
      end
  | Quantified a Plus :: ts' =>
      repeatPlus (atomMatches a) (matchTerms ts') index rest
  end.

(** RegExpBuiltinExec without the global and sticky flags: the match is
    tried at index 0, 1, ... up to the length of the input. *)
Fixpoint execFrom (ts : list Term) (lastIndex : nat) (rest : list N) : bool :=
  matchTerms ts lastIndex rest
  || match rest with
     | [] => false
     | _ :: rest' => execFrom ts (S lastIndex) rest'
     end.

(** [regex.test(string)] *)
Definition test (ts : list Term) (s : list N) : bool := execFrom ts 0 s.

End RegExp.

Import RegExp.

(** ** src/utils.ts *)

Module Utils.

(** [add(a, b)]: [a + b] *)
Definition add (a b : number) : number := plus a b.

Definition AT : N := 64.    (* @ *)
Definition DOT : N := 46.   (* . *)

(** [[^\s@]] *)
Definition notSpaceOrAt : Atom :=
  CharacterClass true [ClassWhiteSpace; ClassChar AT].

(** [/^[^\s@]+@[^\s@]+\.[^\s@]+$/] *)
Definition emailRegex : list Term :=
  [ AssertBegin;
    Quantified notSpaceOrAt Plus;
    Quantified (PatternCharacter AT) Once;
    Quantified notSpaceOrAt Plus;
    Quantified (PatternCharacter DOT) Once;
    Quantified notSpaceOrAt Plus;
    AssertEnd ].

Definition isValidEmail (email : list N) : bool := test emailRegex email.

End Utils.

Import Utils.

(** ** The words of the specification *)

Module Spec.

Definition isDecimalDigit (c : N) : bool := ((48 <=? c) && (c <=? 57))%N.

(** "After optional whitespace and sign, starts with a decimal digit". *)
Definition startsWithDigit (s : list N) : bool :=
  match stripSign (trimStart s) with
  | c :: _ => isDecimalDigit c
  | [] => false
  end.

(** The base-10 integer a scanner reads at the start of [s]: optional
    white space, an optional sign, decimal digits up to the first code
    unit that is not one. *)
Definition decimalValue (s : list N) : Z :=
  signOf (trimStart s) * mathInt 10 (digitPrefix 10 (stripSign (trimStart s))).

(** "Neither whitespace nor @". *)
Definition plainChar (c : N) : bool := negb (isWhiteSpace c) && negb (c =? AT)%N.

(** One or more plain characters, [@], one or more plain characters, [.],
    one or more plain characters. *)
Definition emailShape (candidate : list N) : Prop :=
  exists loc dom tld : list N,
    candidate = loc ++ [AT] ++ dom ++ [DOT] ++ tld
    /\ loc <> [] /\ dom <> [] /\ tld <> []
    /\ forallb plainChar loc = true
    /\ forallb plainChar dom = true
    /\ forallb plainChar tld = true.

(** The snapshot of all defaults. *)
Definition defaults : Config :=
  {| nodeEnv := str "development"; port := ofZ 3000;
     databaseUrl := None; redisUrl := None |}.

(** Two environments that agree on the four variables read. *)
Definition agree (env1 env2 : gmap string (list N)) : Prop :=
  env1 !! "NODE_ENV" = env2 !! "NODE_ENV"
  /\ env1 !! "PORT" = env2 !! "PORT"
  /\ env1 !! "DATABASE_URL" = env2 !! "DATABASE_URL"
  /\ env1 !! "REDIS_URL" = env2 !! "REDIS_URL".

End Spec.

Import Spec.

(** ** Decimal digits and signs, to state what is read and returned *)

Module Decimal.

(** The digit values 0 to 9. *)
Definition isDigitValue (d : Z) : bool := (0 <=? d) && (d <=? 9).

(** The code unit of a decimal digit: ['0'] is 48. *)
Definition digitUnit (d : Z) : N := Z.to_N (48 + d).

(** The string that writes the digits [ds]. *)
Definition digitsString (ds : list Z) : list N := map digitUnit ds.

Definition MINUS : N := 45.   (* - *)

(** A string that does not go on with a decimal digit. *)
Definition noDigitAhead (rest : list N) : bool :=
  match rest with
  | c :: _ => negb (isDecimalDigit c)
  | [] => true
  end.

(** The sign bit of a number (NaN has none). *)
Definition signBit (x : number) : option bool :=
  match x with
  | S754_zero s | S754_infinity s | S754_finite s _ _ => Some s
  | S754_nan => None
  end.

End Decimal.

Import Decimal.

(** ** Rounding to nearest, in the words of IEEE 754 *)

Module Rounding.

(** In units of [2 ^ emin]: the least magnitude that rounds to an infinity,
    [2 ^ 1024 - 2 ^ 970], halfway from the largest finite number to
    [2 ^ 1024]. *)
Definition OVERFLOW : Z := 2 ^ 2098 - 2 ^ 2044.

(** [v] is as near to [n] as the value of any number. *)
Definition nearest (n v : Z) : Prop :=
  forall m : Z, representable m -> Z.abs (n - v) <= Z.abs (n - m).

(** The value of another number is exactly as near to [n] as [v]. *)
Definition tie (n v : Z) : Prop :=
  exists m : Z, representable m /\ m <> v /\ Z.abs (n - m) = Z.abs (n - v).

Definition evenMantissa (x : number) : Prop :=
  match x with
  | S754_finite _ m _ => Z.even (Z.pos m) = true
  | _ => True
  end.

(** [r] is the value [n] rounded to nearest, ties to even: a number whose
    value is nearest to [n], the one with the even mantissa when two are
    equally near, and the infinity of the sign of [n] from [OVERFLOW] on. *)
Definition correctlyRounded (n : Z) (r : number) : Prop :=
  valid r
  /\ if Z.abs n <? OVERFLOW
     then exists v : Z,
            scaled r = Some v /\ nearest n v /\ (tie n v -> evenMantissa r)
     else r = S754_infinity (n <? 0).

End Rounding.

Import Rounding.

(** * Evaluation on examples *)

Example parseInt_8080 : parseInt (str "8080") 10 = ofZ 8080.
Proof. reflexivity. Qed.

Example parseInt_abc : parseInt (str "abc") 10 = NaN.
Proof. reflexivity. Qed.

Example isValidEmail_test : isValidEmail (str "test@example.com") = true.
Proof. reflexivity. Qed.

Example isValidEmail_sub : isValidEmail (str "a@b.c.d") = true.
Proof. reflexivity. Qed.

Example isValidEmail_space : isValidEmail (str "a b@c.d") = false.
Proof. reflexivity. Qed.

Example add_2_3 : add (ofZ 2) (ofZ 3) = ofZ 5.
Proof. reflexivity. Qed.

Example config_empty : config ∅ = mkConfig (str "development") (ofZ 3000) None None.
Proof. reflexivity. Qed.

Example config_production :
  config (<[ "PORT" := str "8080" ]> {[ "NODE_ENV" := str "production" ]})
  = mkConfig (str "production") (ofZ 8080) None None.
Proof. reflexivity. Qed.

Example config_port_suffix :
  port (config {[ "PORT" := str " 80px" ]}) = ofZ 80.
Proof. reflexivity. Qed.

(** * Facts about numbers *)

Module NumberFacts.

(** ** Shifts of positive mantissas *)

Lemma Zpos_iter_xO (m p : positive) :
  Z.pos (Pos.iter xO m p) = Z.pos m * 2 ^ Z.pos p.
Proof.
  induction p as [|p IH] using Pos.peano_ind.
  - simpl. lia.
  - rewrite Pos.iter_succ, Pos2Z.inj_xO, IH, Pos2Z.inj_succ, Z.pow_succ_r by lia.
    lia.
Qed.

Lemma digits2_pos_iter_xO (m p : positive) :
  digits2_pos (Pos.iter xO m p) = (digits2_pos m + p)%positive.
Proof.
  induction p as [|p IH] using Pos.peano_ind.
  - simpl. lia.
  - rewrite Pos.iter_succ. simpl. rewrite IH. lia.
Qed.

Lemma digits2_pos_bound (p : positive) (n : Z) :
  Z.pos p < 2 ^ n -> 0 <= n -> Z.pos (digits2_pos p) <= n.
Proof.
  revert n. induction p as [p IH|p IH|]; intros n Hlt Hn; simpl.
  - assert (n <> 0) by (intros ->; simpl in Hlt; lia).
    replace n with (Z.succ (n - 1)) in Hlt by lia.
    rewrite Z.pow_succ_r in Hlt by lia.
    specialize (IH (n - 1)). lia.
  - assert (n <> 0) by (intros ->; simpl in Hlt; lia).
    replace n with (Z.succ (n - 1)) in Hlt by lia.
    rewrite Z.pow_succ_r in Hlt by lia.
    specialize (IH (n - 1)). lia.
  - assert (n <> 0) by (intros ->; simpl in Hlt; lia). lia.
Qed.

Lemma iter_pos_Pos_iter {A} (f : A -> A) (p : positive) (x : A) :
  SpecFloat.iter_pos f p x = Pos.iter f x p.
Proof.
  revert x. induction p as [p IH|p IH|]; intros x; simpl.
  - rewrite !IH. rewrite <- !Pos.iter_swap. reflexivity.
  - rewrite !IH. reflexivity.
  - reflexivity.
Qed.

(** Shifting right what was shifted left loses nothing. *)
Lemma shr_1_iter_xO (w p : positive) :
  SpecFloat.iter_pos shr_1 p (Build_shr_record (Z.pos (Pos.iter xO w p)) false false)
  = Build_shr_record (Z.pos w) false false.
Proof.
  rewrite iter_pos_Pos_iter.
  induction p as [|p IH] using Pos.peano_ind.
  - reflexivity.
  - rewrite Pos.iter_succ_r, Pos.iter_succ. simpl. exact IH.
Qed.

Lemma shl_align_fst (m : positive) (e e' : Z) :
  e' <= e -> Z.pos (fst (shl_align m e e')) = Z.pos m * 2 ^ (e - e').
Proof.
  intros Hle. unfold shl_align.
  destruct (e' - e) as [|d|d] eqn:E; simpl.
  - replace (e - e') with 0 by lia. lia.
  - lia.
  - rewrite Zpos_iter_xO. f_equal. f_equal. lia.
Qed.

Lemma Zpos_shiftl (v : positive) (k : N) :
  Z.pos (Pos.shiftl v k) = Z.pos v * 2 ^ Z.of_N k.
Proof.
  destruct k as [|p]; unfold Pos.shiftl, Z.of_N.
  - rewrite Z.pow_0_r. lia.
  - apply Zpos_iter_xO.
Qed.

Lemma digits2_pos_shiftl (v : positive) (k : N) :
  Z.pos (digits2_pos (Pos.shiftl v k)) = Z.pos (digits2_pos v) + Z.of_N k.
Proof.
  destruct k as [|p]; unfold Pos.shiftl, Z.of_N.
  - lia.
  - rewrite digits2_pos_iter_xO. lia.
Qed.

(** ** Rounding a value that needs no rounding *)

Lemma bounded_inv (m : positive) (e : Z) :
  bounded prec emax m e = true ->
  fexp 53 1024 (Z.pos (digits2_pos m) + e) = e /\ -1074 <= e <= 971.
Proof.
  unfold bounded, canonical_mantissa, prec, emax. intros H.
  apply andb_true_iff in H as [Hc He].
  apply Z.eqb_eq in Hc. apply Z.leb_le in He.
  split; [exact Hc|]. unfold fexp, emin in Hc. lia.
Qed.

Lemma binary_round_aux_shifted (s : bool) (w : positive) (t : Z) (k : N) :
  bounded prec emax w t = true ->
  binary_round_aux prec emax s (Z.pos (Pos.shiftl w k)) (t - Z.of_N k) loc_Exact
  = S754_finite s w t.
Proof.
  intros Hb. apply bounded_inv in Hb as [Hfexp Ht]. unfold prec, emax.
  assert (Hstay : shr_fexp 53 1024 (Z.pos w) t loc_Exact
                  = (Build_shr_record (Z.pos w) false false, t)).
  { unfold shr_fexp. simpl Zdigits2. rewrite Hfexp, Z.sub_diag. reflexivity. }
  assert (Hfirst : shr_fexp 53 1024 (Z.pos (Pos.shiftl w k)) (t - Z.of_N k) loc_Exact
                   = (Build_shr_record (Z.pos w) false false, t)).
  { destruct k as [|p].
    - simpl. rewrite Z.sub_0_r. exact Hstay.
    - unfold shr_fexp. simpl Zdigits2.
      replace (Z.pos (digits2_pos (Pos.shiftl w (N.pos p)))
               + (t - Z.of_N (N.pos p))) with (Z.pos (digits2_pos w) + t)
        by (rewrite digits2_pos_shiftl; lia).
      rewrite Hfexp.
      replace (t - (t - Z.of_N (N.pos p))) with (Z.pos p) by lia.
      unfold Pos.shiftl, shr, shr_record_of_loc.
      rewrite shr_1_iter_xO. f_equal. lia. }
  unfold binary_round_aux. rewrite Hfirst. simpl. rewrite Hstay. simpl.
  destruct (Z.leb_spec t (1024 - 53)); [reflexivity | lia].
Qed.

Lemma pow2_pos (k : Z) : 0 <= k -> 0 < 2 ^ k.
Proof. intros H. apply Z.pow_pos_nonneg; lia. Qed.

(** Two mantissas with the same value after scaling have as many digits,
    exponents counted. *)
Lemma digits2_pos_scaled (m w : positive) (a b : Z) :
  0 <= a -> 0 <= b ->
  Z.pos m * 2 ^ a = Z.pos w * 2 ^ b ->
  Z.pos (digits2_pos m) + a = Z.pos (digits2_pos w) + b.
Proof.
  intros Ha Hb E.
  assert (E' : Pos.shiftl m (Z.to_N a) = Pos.shiftl w (Z.to_N b)).
  { apply Pos2Z.inj. rewrite !Zpos_shiftl, !Z2N.id by lia. exact E. }
  apply (f_equal (fun p => Z.pos (digits2_pos p))) in E'.
  rewrite !digits2_pos_shiftl, !Z2N.id in E' by lia. exact E'.
Qed.

(** A mantissa and exponent with the value of a canonical pair round to
    that pair. *)
Lemma binary_round_exact (s : bool) (m : positive) (e : Z) (w : positive) (t : Z) :
  bounded prec emax w t = true ->
  -1074 <= e ->
  Z.pos m * 2 ^ (e + 1074) = Z.pos w * 2 ^ (t + 1074) ->
  binary_round prec emax s m e = S754_finite s w t.
Proof.
  intros Hb He E. pose proof (bounded_inv w t Hb) as [Hfexp Ht].
  assert (Hd : Z.pos (digits2_pos m) + (e + 1074)
               = Z.pos (digits2_pos w) + (t + 1074))
    by (apply digits2_pos_scaled; [lia | lia | exact E]).
  unfold binary_round.
  replace (Z.pos (digits2_pos m) + e) with (Z.pos (digits2_pos w) + t) by lia.
  unfold prec, emax in *. rewrite Hfexp. unfold shl_align.
  pose proof (pow2_pos (e + 1074) ltac:(lia)) as Hpe.
  pose proof (pow2_pos (t + 1074) ltac:(lia)) as Hpt.
  destruct (t - e) as [|q|q] eqn:Hq.
  - replace t with e in * by lia.
    apply Z.mul_cancel_r in E; [|lia]. injection E as ->.
    replace e with (e - Z.of_N 0) at 1 by lia.
    exact (binary_round_aux_shifted s w e 0 Hb).
  - replace (t + 1074) with (Z.pos q + (e + 1074)) in E by lia.
    rewrite (Z.pow_add_r 2 (Z.pos q) (e + 1074)), Z.mul_assoc in E by lia.
    apply Z.mul_cancel_r in E; [|lia].
    replace m with (Pos.shiftl w (N.pos q))
      by (apply Pos2Z.inj; rewrite Zpos_shiftl; symmetry; exact E).
    replace e with (t - Z.of_N (N.pos q)) by lia.
    exact (binary_round_aux_shifted s w t (N.pos q) Hb).
  - replace (e + 1074) with (Z.pos q + (t + 1074)) in E by lia.
    rewrite (Z.pow_add_r 2 (Z.pos q) (t + 1074)), Z.mul_assoc in E by lia.
    apply Z.mul_cancel_r in E; [|lia].
    replace (Pos.iter xO m q) with w
      by (apply Pos2Z.inj; rewrite Zpos_iter_xO; symmetry; exact E).
    replace t with (t - Z.of_N 0) at 1 by lia.
    exact (binary_round_aux_shifted s w t 0 Hb).
Qed.

Lemma cond_Zopp_mul (s : bool) (x y : Z) :
  cond_Zopp s (x * y) = cond_Zopp s x * y.
Proof. destruct s; simpl; lia. Qed.

(** The same for a signed integer mantissa. *)
Lemma binary_normalize_exact (n e : Z) (s : bool) (w : positive) (t : Z) :
  bounded prec emax w t = true ->
  -1074 <= e ->
  n * 2 ^ (e + 1074) = cond_Zopp s (Z.pos w) * 2 ^ (t + 1074) ->
  binary_normalize prec emax n e false = S754_finite s w t.
Proof.
  intros Hb He E. pose proof (bounded_inv w t Hb) as [_ Ht].
  pose proof (pow2_pos (e + 1074) ltac:(lia)) as Hpe.
  pose proof (pow2_pos (t + 1074) ltac:(lia)) as Hpt.
  destruct n as [|m|m], s; cbn [binary_normalize cond_Zopp] in *; try nia.
  - apply binary_round_exact; assumption.
  - apply binary_round_exact; [assumption.. | ].
    rewrite <- !Pos2Z.opp_pos in E. lia.
Qed.

(** ** Addition *)

Lemma plus_comm (x y : number) : plus x y = plus y x.
Proof.
  unfold plus.
  destruct x as [[]|[]| |sx mx ex], y as [[]|[]| |sy my ey];
    try reflexivity.
  unfold SFadd. rewrite (Z.min_comm ey ex). f_equal. apply Z.add_comm.
Qed.

(** The mantissas aligned by [SFadd] add up to the sum of the values. *)
Lemma aligned_sum (sx sy : bool) (mx my : positive) (ex ey : Z) :
  -1074 <= ex -> -1074 <= ey ->
  (cond_Zopp sx (Z.pos (fst (shl_align mx ex (Z.min ex ey))))
   + cond_Zopp sy (Z.pos (fst (shl_align my ey (Z.min ex ey)))))
  * 2 ^ (Z.min ex ey + 1074)
  = cond_Zopp sx (Z.pos mx) * 2 ^ (ex + 1074)
    + cond_Zopp sy (Z.pos my) * 2 ^ (ey + 1074).
Proof.
  intros Hx Hy. set (ez := Z.min ex ey).
  assert (Hzx : ez <= ex) by lia. assert (Hzy : ez <= ey) by lia.
  rewrite (shl_align_fst mx ex ez Hzx), (shl_align_fst my ey ez Hzy).
  rewrite !cond_Zopp_mul, Z.mul_add_distr_r, <- !Z.mul_assoc.
  rewrite <- !Z.pow_add_r by lia.
  f_equal; f_equal; f_equal; lia.
Qed.

(** Finite numbers whose values add up to 0: the sum is [+0]. *)
Lemma plus_finite_zero (sx sy : bool) (mx my : positive) (ex ey : Z) :
  bounded prec emax mx ex = true -> bounded prec emax my ey = true ->
  cond_Zopp sx (Z.pos mx) * 2 ^ (ex + 1074)
  + cond_Zopp sy (Z.pos my) * 2 ^ (ey + 1074) = 0 ->
  plus (S754_finite sx mx ex) (S754_finite sy my ey) = S754_zero false.
Proof.
  intros Hx Hy E.
  apply bounded_inv in Hx as [_ Hx]. apply bounded_inv in Hy as [_ Hy].
  rewrite <- aligned_sum in E by lia.
  pose proof (pow2_pos (Z.min ex ey + 1074) ltac:(lia)) as Hp.
  unfold plus, SFadd.
  apply Z.mul_eq_0_l in E; [|lia]. rewrite E. reflexivity.
Qed.

(** Finite numbers whose values add up to the value of a finite number:
    the sum is that number. *)
Lemma plus_finite_exact (sx sy sr : bool) (mx my mr : positive) (ex ey er : Z) :
  bounded prec emax mx ex = true -> bounded prec emax my ey = true ->
  bounded prec emax mr er = true ->
  cond_Zopp sx (Z.pos mx) * 2 ^ (ex + 1074)
  + cond_Zopp sy (Z.pos my) * 2 ^ (ey + 1074)
  = cond_Zopp sr (Z.pos mr) * 2 ^ (er + 1074) ->
  plus (S754_finite sx mx ex) (S754_finite sy my ey) = S754_finite sr mr er.
Proof.
  intros Hx Hy Hr E.
  apply bounded_inv in Hx as [_ Hx]. apply bounded_inv in Hy as [_ Hy].
  rewrite <- aligned_sum in E by lia.
  unfold plus, SFadd. apply binary_normalize_exact; [exact Hr | lia | exact E].
Qed.

(** ** Converting an integer never gives NaN *)

Lemma shr_1_nonneg (mrs : shr_record) :
  0 <= shr_m mrs -> 0 <= shr_m (shr_1 mrs).
Proof.
  destruct mrs as [m r s]. simpl.
  destruct m as [|[p|p|]|p]; simpl; lia.
Qed.

Lemma shr_nonneg (mrs : shr_record) (e n : Z) :
  0 <= shr_m mrs -> 0 <= shr_m (fst (shr mrs e n)).
Proof.
  intros H. destruct n as [|p|p]; simpl; try exact H.
  rewrite iter_pos_Pos_iter.
  apply (Pos.iter_invariant p _ shr_1 (fun x => 0 <= shr_m x));
    [intros x; apply shr_1_nonneg | exact H].
Qed.

Lemma shr_fexp_nonneg (m e : Z) (l : location) :
  0 <= m -> 0 <= shr_m (fst (shr_fexp prec emax m e l)).
Proof.
  intros H. unfold shr_fexp. apply shr_nonneg.
  destruct l as [|[]]; exact H.
Qed.

Lemma round_nearest_even_nonneg (m : Z) (l : location) :
  0 <= m -> 0 <= round_nearest_even m l.
Proof.
  intros H. destruct l as [|[]]; simpl; try lia.
  destruct (Z.even m); lia.
Qed.

Lemma binary_round_aux_not_NaN (s : bool) (m e : Z) (l : location) :
  0 <= m -> isNaN (binary_round_aux prec emax s m e l) = false.
Proof.
  intros H. unfold binary_round_aux.
  pose proof (shr_fexp_nonneg m e l H) as H1.
  destruct (shr_fexp prec emax m e l) as [mrs' e']. simpl in H1.
  pose proof (shr_fexp_nonneg _ e' loc_Exact
                (round_nearest_even_nonneg _ (loc_of_shr_record mrs') H1)) as H2.
  destruct (shr_fexp prec emax _ e' loc_Exact) as [mrs'' e'']. simpl in H2.
  destruct (shr_m mrs'') as [|q|q]; [reflexivity | | lia].
  destruct (e'' <=? emax - prec); reflexivity.
Qed.

Lemma ofZ_not_NaN (z : Z) : isNaN (ofZ z) = false.
Proof.
  unfold ofZ, binary_normalize, binary_round.
  destruct z as [|v|v]; [reflexivity | |];
    destruct (shl_align v 0 _) as [mz ez];
    apply binary_round_aux_not_NaN; lia.
Qed.

Lemma ofZ_neq_NaN (z : Z) : ofZ z <> NaN.
Proof. intros H. pose proof (ofZ_not_NaN z) as E. rewrite H in E. discriminate. Qed.

(** ** Strict equality *)

Lemma strictEquals_refl (x : number) :
  isNaN x = false -> strictEquals x x = true.
Proof.
  intros H. unfold strictEquals, SFeqb.
  destruct x as [[]|[]| |[] m e]; try reflexivity; try discriminate;
    simpl; rewrite Z.compare_refl;
    change (Pos.compare_cont Eq m m) with (m ?= m)%positive;
    rewrite Pos.compare_refl; reflexivity.
Qed.

Lemma strictEquals_zero (s : bool) : strictEquals (S754_zero s) (ofZ 0) = true.
Proof. destruct s; reflexivity. Qed.

(** [x + 0] is [x], up to the sign of zero. *)
Lemma plus_zero_r (x : number) :
  isNaN x = false -> strictEquals (plus x (ofZ 0)) x = true.
Proof.
  intros H. destruct x as [[]|[]| |s m e]; try reflexivity; try discriminate.
  change (plus (S754_finite s m e) (ofZ 0)) with (S754_finite s m e).
  apply strictEquals_refl. reflexivity.
Qed.

(** ** Values *)

Lemma scaled_finite (s : bool) (m : positive) (e : Z) :
  scaled (S754_finite s m e) = Some (cond_Zopp s (Z.pos m) * 2 ^ (e + 1074)).
Proof. reflexivity. Qed.

Lemma cond_Zopp_sign (s : bool) (m : positive) (k : Z) :
  0 < k ->
  if s then cond_Zopp s (Z.pos m) * k < 0 else 0 < cond_Zopp s (Z.pos m) * k.
Proof. intros Hk. destruct s; simpl; nia. Qed.

(** Valid numbers with the same value are strictly equal. *)
Lemma valid_scaled_unique (u v : number) (n : Z) :
  valid u -> valid v -> scaled u = Some n -> scaled v = Some n ->
  strictEquals u v = true.
Proof.
  unfold valid.
  destruct u as [su| | |su mu eu], v as [sv| | |sv mv ev];
    try discriminate; try reflexivity; cbn [valid_binary];
    intros Hu Hv Eu Ev;
    rewrite ?scaled_finite in Eu; rewrite ?scaled_finite in Ev;
    try (pose proof (bounded_inv _ _ Hu) as [Hcu Hru]);
    try (pose proof (bounded_inv _ _ Hv) as [Hcv Hrv]).
  - simpl in Eu. injection Eu as <-. injection Ev as Ev.
    pose proof (cond_Zopp_sign sv mv _ (pow2_pos (ev + 1074) ltac:(lia))).
    destruct sv; lia.
  - simpl in Ev. injection Ev as <-. injection Eu as Eu.
    pose proof (cond_Zopp_sign su mu _ (pow2_pos (eu + 1074) ltac:(lia))).
    destruct su; lia.
  - injection Eu as Eu. injection Ev as Ev. rewrite <- Ev in Eu. clear Ev.
    pose proof (cond_Zopp_sign su mu _ (pow2_pos (eu + 1074) ltac:(lia))) as Su.
    pose proof (cond_Zopp_sign sv mv _ (pow2_pos (ev + 1074) ltac:(lia))) as Sv.
    assert (Hs : su = sv) by (destruct su, sv; trivial; lia). subst sv.
    assert (Em : Z.pos mu * 2 ^ (eu + 1074) = Z.pos mv * 2 ^ (ev + 1074))
      by (destruct su; simpl in Eu; lia).
    assert (Hd : Z.pos (digits2_pos mu) + (eu + 1074)
                 = Z.pos (digits2_pos mv) + (ev + 1074))
      by (apply digits2_pos_scaled; [lia | lia | exact Em]).
    assert (He : eu = ev).
    { rewrite <- Hcu, <- Hcv. f_equal. lia. }
    subst ev. apply Z.mul_cancel_r in Em;
      [|pose proof (pow2_pos (eu + 1074) ltac:(lia)); lia].
    injection Em as ->. apply strictEquals_refl. reflexivity.
Qed.

(** When the sum of the values is representable, [+] returns it. *)
Lemma plus_exact (x y : number) (a b : Z) :
  valid x -> valid y -> scaled x = Some a -> scaled y = Some b ->
  representable (a + b) ->
  scaled (plus x y) = Some (a + b) /\ valid (plus x y).
Proof.
  unfold valid.
  destruct x as [sx| | |sx mx ex], y as [sy| | |sy my ey];
    try discriminate; cbn [valid_binary]; intros Hx Hy Ex Ey Hr.
  - injection Ex as <-. injection Ey as <-. destruct sx, sy; split; reflexivity.
  - injection Ex as <-. rewrite Z.add_0_l. split; [exact Ey | exact Hy].
  - injection Ey as <-. rewrite Z.add_0_r. split; [exact Ex | exact Hx].
  - rewrite scaled_finite in Ex, Ey. injection Ex as <-. injection Ey as <-.
    destruct Hr as ([sr| | |sr mr er] & Vr & Er); try discriminate.
    + injection Er as Er.
      rewrite (plus_finite_zero sx sy mx my ex ey Hx Hy (eq_sym Er)), <- Er.
      split; reflexivity.
    + rewrite scaled_finite in Er. injection Er as Er.
      rewrite (plus_finite_exact sx sy sr mx my mr ex ey er Hx Hy Vr (eq_sym Er)).
      rewrite scaled_finite, Er. split; [reflexivity | exact Vr].
Qed.

(** When the sums of the values are representable, the order of the
    additions does not show. *)
Lemma plus_assoc_exact (x y z : number) (a b c : Z) :
  valid x -> valid y -> valid z ->
  scaled x = Some a -> scaled y = Some b -> scaled z = Some c ->
  representable (a + b) -> representable (b + c) -> representable (a + b + c) ->
  strictEquals (plus (plus x y) z) (plus x (plus y z)) = true.
Proof.
  intros Vx Vy Vz Ex Ey Ez Rab Rbc Rabc.
  destruct (plus_exact x y a b Vx Vy Ex Ey Rab) as [Exy Vxy].
  destruct (plus_exact y z b c Vy Vz Ey Ez Rbc) as [Eyz Vyz].
  destruct (plus_exact (plus x y) z (a + b) c Vxy Vz Exy Ez Rabc) as [El Vl].
  assert (Rabc' : representable (a + (b + c)))
    by (rewrite Z.add_assoc; exact Rabc).
  destruct (plus_exact x (plus y z) a (b + c) Vx Vyz Ex Eyz Rabc') as [Er Vr].
  rewrite <- Z.add_assoc in El.
  exact (valid_scaled_unique _ _ _ Vl Vr El Er).
Qed.

(** ** Safe integers as numbers *)

Lemma isSafe_bound (z : Z) : isSafe z <-> Z.abs z < 2 ^ prec.
Proof.
  unfold isSafe, MAX_SAFE_INTEGER, prec.
  change (2 ^ 53) with 9007199254740992. lia.
Qed.

(** The number of a safe integer other than 0: finite and valid, with the
    value of the integer. *)
Lemma ofZ_safe (z : Z) :
  z <> 0 -> isSafe z ->
  exists w t, ofZ z = S754_finite (z <? 0) w t
              /\ bounded prec emax w t = true
              /\ cond_Zopp (z <? 0) (Z.pos w) * 2 ^ (t + 1074) = z * 2 ^ 1074.
Proof.
  intros Hz0 Hz. apply isSafe_bound in Hz.
  set (v := Z.to_pos (Z.abs z)).
  assert (Hv : Z.pos v = Z.abs z) by (unfold v; rewrite Z2Pos.id; lia).
  assert (Hd : Z.pos (digits2_pos v) <= 53)
    by (apply digits2_pos_bound; [rewrite Hv; exact Hz | lia]).
  set (d := Z.pos (digits2_pos v)) in *.
  set (w := Pos.shiftl v (Z.to_N (53 - d))).
  assert (Hw : Z.pos w * 2 ^ (d - 53 + 1074) = Z.pos v * 2 ^ 1074).
  { unfold w. rewrite Zpos_shiftl, Z2N.id, <- Z.mul_assoc by lia.
    rewrite <- Z.pow_add_r by lia. do 2 f_equal. lia. }
  assert (Hb : bounded prec emax w (d - 53) = true).
  { unfold bounded, canonical_mantissa. apply andb_true_iff. split.
    - apply Z.eqb_eq. unfold w. rewrite digits2_pos_shiftl, Z2N.id by lia.
      fold d. unfold fexp, emin, prec, emax. lia.
    - apply Z.leb_le. unfold prec, emax. lia. }
  assert (Hs : cond_Zopp (z <? 0) (Z.pos v) = z).
  { destruct (Z.ltb_spec z 0); simpl; lia. }
  assert (Hval : cond_Zopp (z <? 0) (Z.pos w) * 2 ^ (d - 53 + 1074) = z * 2 ^ 1074).
  { rewrite <- Hs at 2. destruct (z <? 0); simpl; lia. }
  exists w, (d - 53). split; [|split; [exact Hb | exact Hval]].
  unfold ofZ. apply binary_normalize_exact; [exact Hb | lia |].
  rewrite Hval. reflexivity.
Qed.

Lemma ofZ_valid_scaled (z : Z) :
  isSafe z -> valid (ofZ z) /\ scaled (ofZ z) = Some (z * 2 ^ 1074).
Proof.
  intros Hz. destruct (Z.eq_dec z 0) as [->|Hz0]; [split; reflexivity|].
  destruct (ofZ_safe z Hz0 Hz) as (w & t & -> & Hb & Hval).
  split; [exact Hb|]. rewrite scaled_finite, Hval. reflexivity.
Qed.

(** On safe integers with a safe sum, [+] is the sum of the integers. *)
Lemma plus_ofZ (a b : Z) :
  isSafe a -> isSafe b -> isSafe (a + b) ->
  plus (ofZ a) (ofZ b) = ofZ (a + b).
Proof.
  intros Ha Hb Hab.
  destruct (Z.eq_dec a 0) as [->|Ha0]; [|destruct (Z.eq_dec b 0) as [->|Hb0]].
  - change (ofZ 0) with (S754_zero false). rewrite Z.add_0_l.
    destruct (Z.eq_dec b 0) as [->|Hb0]; [reflexivity|].
    destruct (ofZ_safe b Hb0 Hb) as (w & t & -> & _). reflexivity.
  - change (ofZ 0) with (S754_zero false). rewrite Z.add_0_r.
    destruct (ofZ_safe a Ha0 Ha) as (w & t & -> & _). reflexivity.
  - destruct (ofZ_safe a Ha0 Ha) as (wa & ta & -> & Ba & Va).
    destruct (ofZ_safe b Hb0 Hb) as (wb & tb & -> & Bb & Vb).
    destruct (Z.eq_dec (a + b) 0) as [E0|Hab0].
    + rewrite E0. apply plus_finite_zero; [exact Ba | exact Bb |]. nia.
    + destruct (ofZ_safe (a + b) Hab0 Hab) as (wr & tr & -> & Br & Vr).
      apply plus_finite_exact; [exact Ba | exact Bb | exact Br |]. nia.
Qed.

(** ** Rounding gives numbers *)

Lemma digits2_pos_spec (p : positive) :
  2 ^ (Z.pos (digits2_pos p) - 1) <= Z.pos p < 2 ^ Z.pos (digits2_pos p).
Proof.
  induction p as [p IH|p IH|]; simpl digits2_pos;
    rewrite ?Pos2Z.inj_succ; [| |simpl; lia].
  - replace (Z.succ (Z.pos (digits2_pos p)) - 1)
      with (Z.succ (Z.pos (digits2_pos p) - 1)) by lia.
    rewrite !Z.pow_succ_r by lia. lia.
  - replace (Z.succ (Z.pos (digits2_pos p)) - 1)
      with (Z.succ (Z.pos (digits2_pos p) - 1)) by lia.
    rewrite !Z.pow_succ_r by lia. lia.
Qed.

Lemma Zdigits2_nonneg (m : Z) : 0 <= Zdigits2 m.
Proof. destruct m; simpl; lia. Qed.

Lemma Zdigits2_succ (m : Z) : 0 <= m -> Zdigits2 m <= Zdigits2 (m + 1).
Proof.
  intros Hm. destruct m as [|p|p]; [simpl; lia | | lia].
  destruct (Z.pos p + 1) as [|q|q] eqn:E; try lia. simpl.
  destruct (Z.le_gt_cases (Z.pos (digits2_pos p)) (Z.pos (digits2_pos q)))
    as [H|H]; [exact H|].
  pose proof (digits2_pos_spec p) as [Hp _].
  pose proof (digits2_pos_spec q) as [_ Hq].
  assert (2 ^ Z.pos (digits2_pos q) <= 2 ^ (Z.pos (digits2_pos p) - 1))
    by (apply Z.pow_le_mono_r; lia).
  lia.
Qed.

Lemma shr_1_digits (mrs : shr_record) :
  0 <= shr_m mrs ->
  Zdigits2 (shr_m (shr_1 mrs)) = Z.max 0 (Zdigits2 (shr_m mrs) - 1).
Proof.
  destruct mrs as [m r s]. simpl.
  destruct m as [|[p|p|]|p]; simpl; lia.
Qed.

Lemma iter_shr_1_digits (p : positive) (mrs : shr_record) :
  0 <= shr_m mrs ->
  0 <= shr_m (Pos.iter shr_1 mrs p)
  /\ Zdigits2 (shr_m (Pos.iter shr_1 mrs p))
     = Z.max 0 (Zdigits2 (shr_m mrs) - Z.pos p).
Proof.
  intros Hm. induction p as [|p [IH1 IH2]] using Pos.peano_ind.
  - split; [apply shr_1_nonneg, Hm | apply shr_1_digits, Hm].
  - rewrite Pos.iter_succ. split; [apply shr_1_nonneg, IH1|].
    rewrite shr_1_digits, IH2 by exact IH1. lia.
Qed.

(** After the shift to the exponent of its magnitude a mantissa is
    canonical. *)
Lemma shr_fexp_canonical (m e : Z) (l : location) :
  0 <= m -> e <= fexp 53 1024 (Zdigits2 m + e) ->
  0 <= shr_m (fst (shr_fexp 53 1024 m e l))
  /\ fexp 53 1024 (Zdigits2 (shr_m (fst (shr_fexp 53 1024 m e l)))
                   + snd (shr_fexp 53 1024 m e l))
     = snd (shr_fexp 53 1024 m e l).
Proof.
  intros Hm He. unfold shr_fexp.
  assert (Hrec : shr_m (shr_record_of_loc m l) = m) by (destruct l as [|[]]; reflexivity).
  pose proof (Zdigits2_nonneg m) as Hd.
  destruct (fexp 53 1024 (Zdigits2 m + e) - e) as [|p|p] eqn:E;
    cbn [shr fst snd]; rewrite ?Hrec.
  - split; [exact Hm | lia].
  - rewrite iter_pos_Pos_iter.
    destruct (iter_shr_1_digits p (shr_record_of_loc m l)) as [H1 H2];
      [rewrite Hrec; exact Hm|].
    split; [exact H1|]. rewrite H2, Hrec.
    unfold fexp, emin in *. lia.
  - lia.
Qed.

Lemma round_nearest_even_digits (m : Z) (l : location) :
  0 <= m ->
  0 <= round_nearest_even m l
  /\ Zdigits2 m <= Zdigits2 (round_nearest_even m l).
Proof.
  intros Hm. pose proof (Zdigits2_succ m Hm).
  destruct l as [|[]]; simpl; try (split; lia).
  destruct (Z.even m); split; lia.
Qed.

Lemma binary_round_aux_valid (s : bool) (m e : Z) (l : location) :
  0 <= m -> e <= fexp 53 1024 (Zdigits2 m + e) ->
  valid (binary_round_aux prec emax s m e l).
Proof.
  intros Hm He. unfold valid, binary_round_aux, prec, emax.
  pose proof (shr_fexp_canonical m e l Hm He) as [H1 C1].
  destruct (shr_fexp 53 1024 m e l) as [mrs' e']. cbn [fst snd] in H1, C1.
  pose proof (round_nearest_even_digits _ (loc_of_shr_record mrs') H1) as [H2 D2].
  set (m2 := round_nearest_even (shr_m mrs') (loc_of_shr_record mrs')) in *.
  assert (He' : e' <= fexp 53 1024 (Zdigits2 m2 + e'))
    by (unfold fexp, emin in *; lia).
  pose proof (shr_fexp_canonical m2 e' loc_Exact H2 He') as [H3 C3].
  destruct (shr_fexp 53 1024 m2 e' loc_Exact) as [mrs'' e''].
  cbn [fst snd] in H3, C3.
  destruct (shr_m mrs'') as [|q|q]; [reflexivity | | reflexivity].
  destruct (Z.leb_spec e'' (1024 - 53)) as [Hle|Hgt]; [|reflexivity].
  cbn [valid_binary]. unfold bounded, canonical_mantissa.
  apply andb_true_iff. split; [apply Z.eqb_eq, C3 | apply Z.leb_le, Hle].
Qed.

Lemma binary_round_valid (s : bool) (m : positive) (e : Z) :
  valid (binary_round prec emax s m e).
Proof.
  unfold binary_round, shl_align, prec, emax.
  destruct (fexp 53 1024 (Z.pos (digits2_pos m) + e) - e) as [|q|q] eqn:E;
    apply binary_round_aux_valid; try lia; simpl Zdigits2.
  - lia.
  - lia.
  - rewrite digits2_pos_iter_xO, Pos2Z.inj_add.
    replace (Z.pos (digits2_pos m) + Z.pos q
             + fexp 53 1024 (Z.pos (digits2_pos m) + e))
      with (Z.pos (digits2_pos m) + e) by lia.
    lia.
Qed.

Lemma ofZ_valid (z : Z) : valid (ofZ z).
Proof.
  unfold ofZ, binary_normalize.
  destruct z; [reflexivity | apply binary_round_valid..].
Qed.

(** The sum of two numbers is a number. *)
Lemma plus_valid (x y : number) : valid x -> valid y -> valid (plus x y).
Proof.
  intros Vx Vy. unfold plus.
  destruct x as [[]|[]| |sx mx ex], y as [[]|[]| |sy my ey];
    try reflexivity; try exact Vx; try exact Vy.
  unfold SFadd, binary_normalize.
  destruct (_ + _); [reflexivity | apply binary_round_valid..].
Qed.

End NumberFacts.

(** * Facts about parseInt in radix 10 *)

Module ParseIntFacts.

Lemma parseInt_10 (v : list N) :
  parseInt v 10 =
    match digitPrefix 10 (stripSign (trimStart v)) with
    | [] => NaN
    | ds =>
        if mathInt 10 ds =? 0 then S754_zero (signOf (trimStart v) <? 0)
        else ofZ (signOf (trimStart v) * mathInt 10 ds)
    end.
Proof. reflexivity. Qed.

Lemma radixDigit_decimal (c : N) :
  isDecimalDigit c = true -> radixDigit 10 c = Some (Z.of_N c - 48).
Proof.
  unfold isDecimalDigit, radixDigit, digitValue. intros H. rewrite H.
  apply andb_true_iff in H as [H1 H2].
  apply N.leb_le in H1. apply N.leb_le in H2.
  destruct (Z.ltb_spec (Z.of_N c - 48) 10); [reflexivity | lia].
Qed.

Lemma radixDigit_other (c : N) :
  isDecimalDigit c = false -> radixDigit 10 c = None.
Proof.
  unfold isDecimalDigit, radixDigit, digitValue. intros H. rewrite H.
  destruct ((97 <=? c) && (c <=? 122))%N eqn:Hlow;
    [|destruct ((65 <=? c) && (c <=? 90))%N eqn:Hup; [|reflexivity]].
  - apply andb_true_iff in Hlow as [H1 _]. apply N.leb_le in H1.
    destruct (Z.ltb_spec (Z.of_N c - 87) 10); [lia | reflexivity].
  - apply andb_true_iff in Hup as [H1 _]. apply N.leb_le in H1.
    destruct (Z.ltb_spec (Z.of_N c - 55) 10); [lia | reflexivity].
Qed.

Lemma digitPrefix_nil (v : list N) :
  startsWithDigit v = false -> digitPrefix 10 (stripSign (trimStart v)) = [].
Proof.
  unfold startsWithDigit. destruct (stripSign (trimStart v)) as [|c s].
  - reflexivity.
  - intros H. simpl. rewrite (radixDigit_other c H). reflexivity.
Qed.

Lemma digitPrefix_cons (v : list N) :
  startsWithDigit v = true ->
  exists d ds, digitPrefix 10 (stripSign (trimStart v)) = d :: ds.
Proof.
  unfold startsWithDigit. destruct (stripSign (trimStart v)) as [|c s].
  - discriminate.
  - intros H. simpl. rewrite (radixDigit_decimal c H). eauto.
Qed.

(** No digit to read: NaN. *)
Lemma parseInt_NaN (v : list N) :
  startsWithDigit v = false -> parseInt v 10 = NaN.
Proof. intros H. rewrite parseInt_10, (digitPrefix_nil v H). reflexivity. Qed.

(** Digits to read: the number of the integer they spell. *)
Lemma parseInt_decimal (v : list N) :
  startsWithDigit v = true ->
  strictEquals (parseInt v 10) (ofZ (decimalValue v)) = true.
Proof.
  intros H. rewrite parseInt_10. unfold decimalValue.
  destruct (digitPrefix_cons v H) as (d & ds & ->).
  destruct (Z.eqb_spec (mathInt 10 (d :: ds)) 0) as [E|E].
  - rewrite E, Z.mul_0_r. apply NumberFacts.strictEquals_zero.
  - apply NumberFacts.strictEquals_refl, NumberFacts.ofZ_not_NaN.
Qed.

Lemma strictEquals_not_NaN (x y : number) :
  strictEquals x y = true -> isNaN x = false.
Proof. destruct x; [reflexivity.. | discriminate | reflexivity]. Qed.

Lemma parseInt_isNaN (v : list N) :
  isNaN (parseInt v 10) = negb (startsWithDigit v).
Proof.
  destruct (startsWithDigit v) eqn:H; simpl.
  - exact (strictEquals_not_NaN _ _ (parseInt_decimal v H)).
  - rewrite (parseInt_NaN v H). reflexivity.
Qed.

(** Whatever the string and the radix, the result is a number. *)
Lemma parseInt_valid (s : list N) (radix : Z) : valid (parseInt s radix).
Proof.
  unfold parseInt.
  destruct ((radix =? 0) || (2 <=? radix) && (radix <=? 36)); [|reflexivity].
  set (choice := match (if (radix =? 0) || (radix =? 16)
                          then stripHexPrefix (stripSign (trimStart s))
                          else None) with
                 | Some body' => (16, body')
                 | None => (if radix =? 0 then 10 else radix,
                            stripSign (trimStart s))
                 end).
  destruct choice as [R body].
  destruct (digitPrefix R body) as [|d ds]; [reflexivity|].
  destruct (mathInt R (d :: ds) =? 0); [reflexivity|].
  apply NumberFacts.ofZ_valid.
Qed.

End ParseIntFacts.

(** * Facts about the configuration *)

Module ConfigFacts.

(** Evaluation reads the four variables and leaves [process.env] as it is. *)
Lemma evalConfig_unfold (env : gmap string (list N)) :
  evalConfig env =
    ({| nodeEnv := orElse (env !! "NODE_ENV") (str "development");
        port := parseInt (orElse (env !! "PORT") (str "3000")) 10;
        databaseUrl := env !! "DATABASE_URL";
        redisUrl := env !! "REDIS_URL" |}, env).
Proof. reflexivity. Qed.

Lemma nodeEnv_config (env : gmap string (list N)) :
  nodeEnv (config env) = orElse (env !! "NODE_ENV") (str "development").
Proof. reflexivity. Qed.

Lemma port_config (env : gmap string (list N)) :
  port (config env) = parseInt (orElse (env !! "PORT") (str "3000")) 10.
Proof. reflexivity. Qed.

Lemma orElse_nonempty (v fallback : list N) :
  v <> [] -> orElse (Some v) fallback = v.
Proof. destruct v; [congruence | reflexivity]. Qed.

End ConfigFacts.

(** * Facts about the matcher *)

Module RegExpFacts.

(** What greedy [+] followed by a continuation accepts. *)
Lemma repeatPlus_spec (p : N -> bool) (k : nat -> list N -> bool)
    (rest : list N) (index : nat) :
  repeatPlus p k index rest = true <->
  exists a b, rest = a ++ b /\ a <> [] /\ forallb p a = true
              /\ k (index + length a)%nat b = true.
Proof.
  revert index. induction rest as [|ch rest IH]; intros index; simpl.
  - split; [discriminate|].
    intros (a & b & E & Ha & _). destruct a; [congruence | discriminate].
  - rewrite andb_true_iff, orb_true_iff, IH. split.
    + intros [Hp [(a & b & -> & Ha & Hall & Hk) | Hk]].
      * exists (ch :: a), b. simpl. rewrite Hp, Hall.
        replace (index + S (length a))%nat with (S index + length a)%nat by lia.
        repeat split; [congruence | exact Hk].
      * exists [ch], rest. simpl. rewrite Hp.
        replace (index + 1)%nat with (S index) by lia.
        repeat split; [congruence | exact Hk].
    + intros (a & b & E & Ha & Hall & Hk).
      destruct a as [|c a]; [congruence|].
      simpl in E, Hall, Hk. injection E as -> ->.
      apply andb_true_iff in Hall as [Hp Hall]. split; [exact Hp|].
      destruct a as [|c' a].
      * right. simpl in Hk. replace (S index) with (index + 1)%nat by lia.
        exact Hk.
      * left. exists (c' :: a), b.
        replace (S index + length (c' :: a))%nat
          with (index + S (length (c' :: a)))%nat by lia.
        repeat split; [congruence | exact Hall | exact Hk].
Qed.

Lemma matchTerms_char (c : N) (ts : list Term) (index : nat) (rest : list N) :
  matchTerms (Quantified (PatternCharacter c) Once :: ts) index rest = true <->
  exists rest', rest = c :: rest' /\ matchTerms ts (S index) rest' = true.
Proof.
  simpl. destruct rest as [|ch rest'].
  - split; [discriminate | intros (r & E & _); discriminate].
  - rewrite andb_true_iff, N.eqb_eq. split.
    + intros [-> H]. eauto.
    + intros (r & E & H). injection E as -> ->. auto.
Qed.

Lemma matchTerms_end (index : nat) (rest : list N) :
  matchTerms [AssertEnd] index rest = true <-> rest = [].
Proof. destruct rest; simpl; split; congruence. Qed.

(** With [^] in front, no match starts after index 0. *)
Lemma execFrom_anchored (ts : list Term) (rest : list N) (lastIndex : nat) :
  lastIndex <> 0%nat -> execFrom (AssertBegin :: ts) lastIndex rest = false.
Proof.
  revert lastIndex. induction rest as [|ch rest IH]; intros i Hi;
    destruct i as [|i]; try congruence; simpl.
  - reflexivity.
  - apply IH. congruence.
Qed.

Lemma test_anchored (ts : list Term) (s : list N) :
  test (AssertBegin :: ts) s = matchTerms ts 0 s.
Proof.
  unfold test. destruct s as [|ch s]; simpl.
  - apply orb_false_r.
  - rewrite execFrom_anchored by congruence. apply orb_false_r.
Qed.

Lemma notSpaceOrAt_plainChar (c : N) :
  atomMatches notSpaceOrAt c = plainChar c.
Proof.
  unfold plainChar. simpl.
  destruct (isWhiteSpace c), (c =? AT)%N; reflexivity.
Qed.

Lemma forallb_notSpaceOrAt (s : list N) :
  forallb (atomMatches notSpaceOrAt) s = forallb plainChar s.
Proof.
  induction s as [|c s IH]; cbn [forallb]; [reflexivity|].
  rewrite notSpaceOrAt_plainChar, IH. reflexivity.
Qed.

(** The regular expression accepts exactly the strings of the shape. *)
Lemma isValidEmail_emailShape (email : list N) :
  isValidEmail email = true <-> emailShape email.
Proof.
  unfold isValidEmail, emailRegex. rewrite test_anchored.
  change (matchTerms (Quantified notSpaceOrAt Plus :: ?ts) 0 email)
    with (repeatPlus (atomMatches notSpaceOrAt) (matchTerms ts) 0 email).
  rewrite repeatPlus_spec. unfold emailShape. split.
  - intros (loc & r1 & -> & Hloc & Aloc & H).
    apply matchTerms_char in H as (r2 & -> & H).
    change (matchTerms (Quantified notSpaceOrAt Plus :: ?ts) ?i r2)
      with (repeatPlus (atomMatches notSpaceOrAt) (matchTerms ts) i r2) in H.
    apply repeatPlus_spec in H as (dom & r3 & -> & Hdom & Adom & H).
    apply matchTerms_char in H as (r4 & -> & H).
    change (matchTerms (Quantified notSpaceOrAt Plus :: ?ts) ?i r4)
      with (repeatPlus (atomMatches notSpaceOrAt) (matchTerms ts) i r4) in H.
    apply repeatPlus_spec in H as (tld & r5 & -> & Htld & Atld & H).
    apply matchTerms_end in H as ->.
    exists loc, dom, tld. rewrite forallb_notSpaceOrAt in Aloc, Adom, Atld.
    rewrite app_nil_r. repeat split; assumption.
  - intros (loc & dom & tld & -> & Hloc & Hdom & Htld & Aloc & Adom & Atld).
    rewrite <- forallb_notSpaceOrAt in Aloc, Adom, Atld.
    exists loc, ([AT] ++ dom ++ [DOT] ++ tld).
    repeat split; try assumption.
    apply matchTerms_char. eexists. split; [reflexivity|].
    change (matchTerms (Quantified notSpaceOrAt Plus :: ?ts) ?i ?r)
      with (repeatPlus (atomMatches notSpaceOrAt) (matchTerms ts) i r).
    apply repeatPlus_spec. exists dom, ([DOT] ++ tld).
    repeat split; try assumption.
    apply matchTerms_char. eexists. split; [reflexivity|].
    change (matchTerms (Quantified notSpaceOrAt Plus :: ?ts) ?i ?r)
      with (repeatPlus (atomMatches notSpaceOrAt) (matchTerms ts) i r).
    apply repeatPlus_spec. exists tld, [].
    rewrite app_nil_r. repeat split; try assumption.
Qed.

End RegExpFacts.

(** * The configuration snapshot *)

(** C1, as stated, fails: with [PORT=abc] the port is NaN, which is neither
    the default 3000 nor any integer. *)
Lemma port_abc_is_not_3000 :
  port (config {[ "PORT" := str "abc" ]}) = NaN
  /\ port (config {[ "PORT" := str "abc" ]}) <> ofZ 3000
  /\ strictEquals (port (config {[ "PORT" := str "abc" ]})) (ofZ 3000) = false.
Proof. repeat split. discriminate. Qed.

(** C1, amended: the port is 3000 when PORT is absent or empty; when the value
    of PORT, after leading white space and an optional sign, starts with a
    decimal digit, the port is the number of the base-10 integer read there;
    for any other value of PORT the port is NaN. *)
Theorem port_default_or_parsed (env : gmap string (list N)) :
  match env !! "PORT" with
  | None | Some [] => port (config env) = ofZ 3000
  | Some v =>
      if startsWithDigit v
      then strictEquals (port (config env)) (ofZ (decimalValue v)) = true
      else port (config env) = NaN
  end.
Proof.
  rewrite ConfigFacts.port_config.
  destruct (env !! "PORT") as [[|c v]|]; try reflexivity.
  cbn [orElse].
  destruct (startsWithDigit (c :: v)) eqn:H.
  - apply ParseIntFacts.parseInt_decimal, H.
  - apply ParseIntFacts.parseInt_NaN, H.
Qed.

(** C2: whenever PORT is set to a non-empty value that does not start, after
    optional white space and sign, with a decimal digit, the port is NaN: not
    3000 and not the number of any integer. *)
Theorem port_NaN_when_unparseable (env : gmap string (list N)) (v : list N) :
  env !! "PORT" = Some v ->
  v <> [] ->
  startsWithDigit v = false ->
  port (config env) = NaN
  /\ port (config env) <> ofZ 3000
  /\ forall z : Z, port (config env) <> ofZ z.
Proof.
  intros Hv Hne Hd.
  assert (E : port (config env) = NaN).
  { rewrite ConfigFacts.port_config, Hv, ConfigFacts.orElse_nonempty by exact Hne.
    apply ParseIntFacts.parseInt_NaN, Hd. }
  rewrite E. repeat split; intros; apply not_eq_sym, NumberFacts.ofZ_neq_NaN.
Qed.

(** C2 at [PORT=abc]. *)
Lemma port_NaN_when_unparseable_witness :
  ({[ "PORT" := str "abc" ]} : gmap string (list N)) !! "PORT" = Some (str "abc")
  /\ str "abc" <> []
  /\ startsWithDigit (str "abc") = false
  /\ port (config {[ "PORT" := str "abc" ]}) = NaN
  /\ port (config {[ "PORT" := str "abc" ]}) <> ofZ 3000.
Proof.
  split; [reflexivity|]. split; [discriminate|]. split; [reflexivity|].
  pose proof (port_NaN_when_unparseable {[ "PORT" := str "abc" ]} (str "abc"))
    as H.
  destruct H as (H1 & H2 & _); [reflexivity | discriminate | reflexivity |].
  split; [exact H1 | exact H2].
Defined.

(** C5: [nodeEnv] is the value of NODE_ENV when it is set and not empty, and
    ["development"] when it is not set or empty. *)
Theorem nodeEnv_value_or_development (env : gmap string (list N)) :
  (forall v, env !! "NODE_ENV" = Some v -> v <> [] -> nodeEnv (config env) = v)
  /\ (env !! "NODE_ENV" = None \/ env !! "NODE_ENV" = Some [] ->
      nodeEnv (config env) = str "development").
Proof.
  rewrite ConfigFacts.nodeEnv_config. split.
  - intros v -> Hne. apply ConfigFacts.orElse_nonempty, Hne.
  - intros [-> | ->]; reflexivity.
Qed.

(** C5 at [NODE_ENV=production] and at [NODE_ENV] empty. *)
Lemma nodeEnv_value_or_development_witness :
  nodeEnv (config {[ "NODE_ENV" := str "production" ]}) = str "production"
  /\ nodeEnv (config {[ "NODE_ENV" := [] ]}) = str "development".
Proof.
  split.
  - apply (proj1 (nodeEnv_value_or_development {[ "NODE_ENV" := str "production" ]}));
      [reflexivity | discriminate].
  - apply (proj2 (nodeEnv_value_or_development {[ "NODE_ENV" := [] ]})).
    right. reflexivity.
Defined.

(** C6: [databaseUrl] and [redisUrl] are the values of DATABASE_URL and
    REDIS_URL as they are when set, and absent when not set. *)
Theorem connection_strings_raw (env : gmap string (list N)) :
  databaseUrl (config env) = env !! "DATABASE_URL"
  /\ redisUrl (config env) = env !! "REDIS_URL".
Proof. split; reflexivity. Qed.

(** C7: on the empty environment the snapshot is the one of all defaults. *)
Theorem config_empty_defaults :
  config ∅ = defaults
  /\ nodeEnv (config ∅) = str "development"
  /\ port (config ∅) = ofZ 3000
  /\ databaseUrl (config ∅) = None
  /\ redisUrl (config ∅) = None.
Proof. repeat split. Qed.

(** C9: evaluating the configuration leaves the environment as it was, and
    evaluating it again gives a snapshot with the same four fields. *)
Theorem evalConfig_idempotent (env : gmap string (list N)) :
  let first := evalConfig env in
  let second := evalConfig (snd first) in
  snd first = env
  /\ snd second = env
  /\ nodeEnv (fst first) = nodeEnv (fst second)
  /\ port (fst first) = port (fst second)
  /\ databaseUrl (fst first) = databaseUrl (fst second)
  /\ redisUrl (fst first) = redisUrl (fst second).
Proof.
  cbv zeta. rewrite (ConfigFacts.evalConfig_unfold env). cbn [fst snd].
  rewrite (ConfigFacts.evalConfig_unfold env). cbn [fst snd]. repeat split.
Qed.

(** C10: environments that agree on NODE_ENV, PORT, DATABASE_URL and
    REDIS_URL give the same snapshot. *)
Theorem config_reads_four_variables (env1 env2 : gmap string (list N)) :
  agree env1 env2 -> config env1 = config env2.
Proof.
  intros (Hn & Hp & Hd & Hr). unfold config.
  rewrite !ConfigFacts.evalConfig_unfold. cbn [fst].
  rewrite Hn, Hp, Hd, Hr. reflexivity.
Qed.

(** C10 at two environments that differ on HOME only. *)
Lemma config_reads_four_variables_witness :
  agree {[ "PORT" := str "8080" ]}
        (<[ "HOME" := str "/root" ]> {[ "PORT" := str "8080" ]})
  /\ config {[ "PORT" := str "8080" ]}
     = config (<[ "HOME" := str "/root" ]> {[ "PORT" := str "8080" ]}).
Proof.
  assert (H : agree {[ "PORT" := str "8080" ]}
                (<[ "HOME" := str "/root" ]> {[ "PORT" := str "8080" ]}))
    by (repeat split; reflexivity).
  split; [exact H|].
  exact (config_reads_four_variables _ _ H).
Defined.

(** * Facts about rounding *)

Module RoundingFacts.

(** ** What a shift to the right keeps: quotient, round bit, sticky bit *)

Lemma shr_1_spec (m : Z) (r s : bool) :
  0 <= m ->
  shr_1 (Build_shr_record m r s) = Build_shr_record (Z.div2 m) (Z.odd m) (r || s).
Proof. intros H. destruct m as [|[p|p|]|p]; try reflexivity; lia. Qed.

Lemma iter_shr_1_spec (m : Z) (p : positive) :
  0 <= m ->
  Pos.iter shr_1 (Build_shr_record m false false) p
  = Build_shr_record (m / 2 ^ Z.pos p)
      (Z.odd (m / 2 ^ (Z.pos p - 1)))
      (negb (m mod 2 ^ (Z.pos p - 1) =? 0)).
Proof.
  intros Hm. induction p as [|p IH] using Pos.peano_ind.
  - cbn [Pos.iter]. rewrite shr_1_spec by exact Hm.
    change (Z.pos 1 - 1) with 0. rewrite Z.pow_0_r, Z.pow_1_r, Z.div_1_r.
    rewrite Z.mod_1_r, Z.div2_div. reflexivity.
  - rewrite Pos.iter_succ, IH.
    assert (Hp : 0 < 2 ^ (Z.pos p - 1)) by (apply NumberFacts.pow2_pos; lia).
    assert (Hq : 0 < 2 ^ Z.pos p) by (apply NumberFacts.pow2_pos; lia).
    rewrite shr_1_spec by (apply Z.div_pos; lia).
    replace (Z.pos (Pos.succ p) - 1) with (Z.pos p) by lia.
    rewrite Pos2Z.inj_succ, Z.pow_succ_r, Z.div2_div, Z.div_div by lia.
    rewrite (Z.mul_comm 2). f_equal.
    replace (2 ^ Z.pos p) with (2 ^ (Z.pos p - 1) * 2)
      by (rewrite Z.mul_comm, <- Z.pow_succ_r by lia; f_equal; lia).
    rewrite Z.rem_mul_r, Zmod_odd by lia.
    pose proof (Z.mod_pos_bound m (2 ^ (Z.pos p - 1)) Hp) as Hlow.
    destruct (Z.odd (m / 2 ^ (Z.pos p - 1))); simpl.
    + symmetry. apply negb_true_iff, Z.eqb_neq. lia.
    + f_equal. f_equal. lia.
Qed.

(** The location read off the round and sticky bits is the place of the
    remainder with respect to the half. *)
Lemma loc_of_iter_shr_1 (m : Z) (p : positive) :
  0 <= m ->
  loc_of_shr_record (Pos.iter shr_1 (Build_shr_record m false false) p)
  = if m mod 2 ^ Z.pos p =? 0 then loc_Exact
    else loc_Inexact (2 * (m mod 2 ^ Z.pos p) ?= 2 ^ Z.pos p).
Proof.
  intros Hm. rewrite iter_shr_1_spec by exact Hm.
  assert (Hp : 0 < 2 ^ (Z.pos p - 1)) by (apply NumberFacts.pow2_pos; lia).
  assert (E2 : 2 ^ Z.pos p = 2 ^ (Z.pos p - 1) * 2)
    by (rewrite Z.mul_comm, <- Z.pow_succ_r by lia; f_equal; lia).
  assert (Hrem : m mod 2 ^ Z.pos p
                 = m mod 2 ^ (Z.pos p - 1)
                   + 2 ^ (Z.pos p - 1)
                     * (if Z.odd (m / 2 ^ (Z.pos p - 1)) then 1 else 0)).
  { rewrite E2 at 1. rewrite Z.rem_mul_r, Zmod_odd by lia. reflexivity. }
  rewrite Hrem, E2. clear Hrem E2.
  pose proof (Z.mod_pos_bound m (2 ^ (Z.pos p - 1)) Hp) as Hlow.
  set (low := m mod 2 ^ (Z.pos p - 1)) in *.
  set (P := 2 ^ (Z.pos p - 1)) in *.
  destruct (Z.odd (m / P)); destruct (Z.eqb_spec low 0) as [E|E];
    cbn [loc_of_shr_record negb].
  - destruct (Z.eqb_spec (low + P * 1) 0); [lia|].
    f_equal. symmetry. apply Z.compare_eq_iff. lia.
  - destruct (Z.eqb_spec (low + P * 1) 0); [lia|].
    f_equal. symmetry. apply Z.compare_gt_iff. lia.
  - destruct (Z.eqb_spec (low + P * 0) 0); [reflexivity | lia].
  - destruct (Z.eqb_spec (low + P * 0) 0); [lia|].
    f_equal. symmetry. apply Z.compare_lt_iff. lia.
Qed.

(** Round to nearest even as a decision on the remainder. *)
Lemma round_nearest_even_decision (q rem half2 : Z) :
  0 <= rem ->
  0 < half2 ->
  let q' := round_nearest_even q
              (if rem =? 0 then loc_Exact else loc_Inexact (2 * rem ?= half2)) in
  (q' = q /\ (2 * rem < half2 \/ (2 * rem = half2 /\ Z.even q = true)))
  \/ (q' = q + 1 /\ (half2 < 2 * rem \/ (2 * rem = half2 /\ Z.odd q = true))).
Proof.
  intros Hrem Hh. cbv zeta.
  destruct (Z.eqb_spec rem 0) as [->|Hne]; [left; simpl; split; [reflexivity | lia]|].
  destruct (Z.compare_spec (2 * rem) half2) as [E|E|E]; simpl.
  - destruct (Z.even q) eqn:Ev; [left; auto|].
    right. split; [reflexivity|]. right. split; [exact E|].
    rewrite <- Z.negb_even, Ev. reflexivity.
  - left. auto.
  - right. auto.
Qed.

(** ** Rounding a mantissa of more than 53 digits *)

Lemma digits2_pos_unique (p : positive) (n : Z) :
  2 ^ (n - 1) <= Z.pos p < 2 ^ n -> Z.pos (digits2_pos p) = n.
Proof.
  intros [Hlo Hhi]. pose proof (NumberFacts.digits2_pos_spec p) as [Dlo Dhi].
  set (d := Z.pos (digits2_pos p)) in *.
  assert (Hn : 0 <= n).
  { destruct (Z.le_gt_cases 0 n) as [H|H]; [exact H|].
    rewrite (Z.pow_neg_r 2 n) in Hhi by lia. lia. }
  destruct (Z.lt_trichotomy d n) as [H|[H|H]]; [|exact H|].
  - assert (2 ^ d <= 2 ^ (n - 1)) by (apply Z.pow_le_mono_r; lia). lia.
  - assert (2 ^ n <= 2 ^ (d - 1)) by (apply Z.pow_le_mono_r; lia). lia.
Qed.

(** The quotient of a mantissa of [53 + k] digits by [2 ^ k] has 53. *)
Lemma long_quotient (M : positive) (k : Z) :
  0 < k -> Z.pos (digits2_pos M) = 53 + k ->
  2 ^ 52 <= Z.pos M / 2 ^ k < 2 ^ 53.
Proof.
  intros Hk Hd. pose proof (NumberFacts.digits2_pos_spec M) as [Dlo Dhi].
  rewrite Hd in Dlo, Dhi.
  assert (Hp : 0 < 2 ^ k) by (apply NumberFacts.pow2_pos; lia).
  replace (53 + k - 1) with (52 + k) in Dlo by lia.
  rewrite Z.pow_add_r in Dlo, Dhi by lia. split.
  - apply Z.div_le_lower_bound; lia.
  - apply Z.div_lt_upper_bound; lia.
Qed.

Lemma binary_round_long (s : bool) (M : positive) (e k : Z) :
  0 < k -> Z.pos (digits2_pos M) = 53 + k -> -1074 <= e ->
  exists q' : Z,
    ((q' = Z.pos M / 2 ^ k
      /\ (2 * (Z.pos M mod 2 ^ k) < 2 ^ k
          \/ (2 * (Z.pos M mod 2 ^ k) = 2 ^ k
              /\ Z.even (Z.pos M / 2 ^ k) = true)))
     \/ (q' = Z.pos M / 2 ^ k + 1
         /\ (2 ^ k < 2 * (Z.pos M mod 2 ^ k)
             \/ (2 * (Z.pos M mod 2 ^ k) = 2 ^ k
                 /\ Z.odd (Z.pos M / 2 ^ k) = true))))
    /\ binary_round prec emax s M e
       = if q' <? 2 ^ 53
         then if e + k <=? 971 then S754_finite s (Z.to_pos q') (e + k)
              else S754_infinity s
         else if e + k + 1 <=? 971
              then S754_finite s 4503599627370496 (e + k + 1)
              else S754_infinity s.
Proof.
  intros Hk Hd He. pose proof (long_quotient M k Hk Hd) as Hq.
  destruct k as [|kp|kp]; try lia.
  assert (Hp : 0 < 2 ^ Z.pos kp) by (apply NumberFacts.pow2_pos; lia).
  pose proof (Z.mod_pos_bound (Z.pos M) (2 ^ Z.pos kp) Hp) as Hrem.
  set (q := Z.pos M / 2 ^ Z.pos kp) in *.
  set (rem := Z.pos M mod 2 ^ Z.pos kp) in *.
  set (q' := round_nearest_even q
               (if rem =? 0 then loc_Exact
                else loc_Inexact (2 * rem ?= 2 ^ Z.pos kp))).
  pose proof (round_nearest_even_decision q rem (2 ^ Z.pos kp)
                ltac:(lia) Hp) as Hdec.
  cbv zeta in Hdec. fold q' in Hdec.
  exists q'. split; [exact Hdec|].
  assert (Hfexp : fexp 53 1024 (Z.pos (digits2_pos M) + e) = e + Z.pos kp)
    by (unfold fexp, emin; lia).
  unfold binary_round, prec, emax. rewrite Hfexp.
  unfold shl_align. replace (e + Z.pos kp - e) with (Z.pos kp) by lia.
  unfold binary_round_aux.
  assert (Hfirst : shr_fexp 53 1024 (Z.pos M) e loc_Exact
                   = (Pos.iter shr_1 (Build_shr_record (Z.pos M) false false) kp,
                      e + Z.pos kp)).
  { unfold shr_fexp. simpl Zdigits2. rewrite Hfexp.
    replace (e + Z.pos kp - e) with (Z.pos kp) by lia.
    unfold shr, shr_record_of_loc.
    rewrite NumberFacts.iter_pos_Pos_iter. reflexivity. }
  rewrite Hfirst. rewrite loc_of_iter_shr_1 by lia.
  rewrite iter_shr_1_spec by lia. cbn [shr_m]. fold q rem q'.
  assert (Hq' : 2 ^ 52 <= q' <= 2 ^ 53) by (destruct Hdec as [[-> _]|[-> _]]; lia).
  destruct (q' <? 2 ^ 53) eqn:Hlt.
  - apply Z.ltb_lt in Hlt.
    destruct q' as [|qp|qp] eqn:Eq'; try lia.
    assert (Hdq : Z.pos (digits2_pos qp) = 53)
      by (apply digits2_pos_unique; simpl (53 - 1); lia).
    assert (Hsecond : shr_fexp 53 1024 (Z.pos qp) (e + Z.pos kp) loc_Exact
                      = (Build_shr_record (Z.pos qp) false false, e + Z.pos kp)).
    { unfold shr_fexp. simpl Zdigits2. rewrite Hdq.
      replace (fexp 53 1024 (53 + (e + Z.pos kp)) - (e + Z.pos kp)) with 0
        by (unfold fexp, emin; lia).
      reflexivity. }
    rewrite Hsecond. cbn [shr_m]. reflexivity.
  - apply Z.ltb_ge in Hlt. assert (Eq' : q' = 2 ^ 53) by lia.
    rewrite Eq'.
    assert (Hsecond : shr_fexp 53 1024 (2 ^ 53) (e + Z.pos kp) loc_Exact
                      = (Build_shr_record (2 ^ 52) false false,
                         e + Z.pos kp + 1)).
    { unfold shr_fexp. change (Zdigits2 (2 ^ 53)) with 54.
      replace (fexp 53 1024 (54 + (e + Z.pos kp)) - (e + Z.pos kp)) with 1
        by (unfold fexp, emin; lia).
      reflexivity. }
    rewrite Hsecond. cbn [shr_m]. reflexivity.
Qed.

(** ** The values of numbers *)

Lemma OVERFLOW_eq : OVERFLOW = (2 ^ 54 - 1) * 2 ^ 2044.
Proof. unfold OVERFLOW. vm_compute. reflexivity. Qed.

Lemma bounded_mantissa (m : positive) (e : Z) :
  bounded prec emax m e = true -> Z.pos m < 2 ^ 53.
Proof.
  intros Hb. apply NumberFacts.bounded_inv in Hb as [Hc _].
  pose proof (NumberFacts.digits2_pos_spec m) as [_ Hhi].
  assert (Z.pos (digits2_pos m) <= 53) by (unfold fexp, emin in Hc; lia).
  assert (2 ^ Z.pos (digits2_pos m) <= 2 ^ 53) by (apply Z.pow_le_mono_r; lia).
  lia.
Qed.

(** A value is 0 or, up to its sign, a canonical mantissa at its exponent. *)
Lemma representable_cases (m : Z) :
  representable m ->
  m = 0
  \/ exists (w : positive) (t : Z),
       bounded prec emax w t = true
       /\ (m = Z.pos w * 2 ^ (t + 1074) \/ m = - (Z.pos w * 2 ^ (t + 1074))).
Proof.
  intros ([sz| | |sz w t] & Vz & Ez); try discriminate.
  - injection Ez as <-. left. reflexivity.
  - rewrite NumberFacts.scaled_finite in Ez. injection Ez as <-.
    right. exists w, t. split; [exact Vz|]. destruct sz; simpl; lia.
Qed.

Lemma representable_opp (m : Z) : representable m -> representable (- m).
Proof.
  intros ([sz| | |sz w t] & Vz & Ez); try discriminate.
  - injection Ez as <-. exists (S754_zero sz). split; reflexivity.
  - rewrite NumberFacts.scaled_finite in Ez. injection Ez as <-.
    exists (S754_finite (negb sz) w t). split; [exact Vz|].
    rewrite NumberFacts.scaled_finite. f_equal. destruct sz; simpl; lia.
Qed.

(** No value is larger than the largest finite number. *)
Lemma representable_bound (m : Z) : representable m -> Z.abs m < OVERFLOW.
Proof.
  intros Hm. rewrite OVERFLOW_eq.
  assert (H0 : 0 < 2 ^ 2044) by (apply NumberFacts.pow2_pos; lia).
  destruct (representable_cases m Hm) as [->|(w & t & Hb & Hv)]; [simpl; lia|].
  pose proof (bounded_mantissa w t Hb) as Hw.
  apply NumberFacts.bounded_inv in Hb as [_ Ht].
  assert (Hp : 0 < 2 ^ (t + 1074)) by (apply NumberFacts.pow2_pos; lia).
  assert (Hle : 2 ^ (t + 1074) <= 2 ^ 2045) by (apply Z.pow_le_mono_r; lia).
  replace (2 ^ 2045) with (2 * 2 ^ 2044) in Hle
    by (rewrite <- Z.pow_succ_r by lia; reflexivity).
  assert (Habs : Z.abs m = Z.pos w * 2 ^ (t + 1074)) by (destruct Hv; lia).
  rewrite Habs. change (2 ^ 54) with 18014398509481984.
  change (2 ^ 53) with 9007199254740992 in Hw. nia.
Qed.

(** The values of numbers lie on a grid: from [q * G] to [(q + 1) * G],
    for [q] of 53 digits and [G] a power of 2, there is none. *)
Lemma representable_grid (w : positive) (t K q : Z) :
  bounded prec emax w t = true -> 0 <= K -> 2 ^ 52 <= q ->
  Z.pos w * 2 ^ (t + 1074) <= q * 2 ^ K
  \/ (q + 1) * 2 ^ K <= Z.pos w * 2 ^ (t + 1074).
Proof.
  intros Hb HK Hq. pose proof (bounded_mantissa w t Hb) as Hw.
  apply NumberFacts.bounded_inv in Hb as [_ Ht].
  assert (HG : 0 < 2 ^ K) by (apply NumberFacts.pow2_pos; lia).
  destruct (Z.le_gt_cases K (t + 1074)) as [Hge|Hlt].
  - replace (t + 1074) with (t + 1074 - K + K) by lia.
    rewrite Z.pow_add_r, Z.mul_assoc by lia.
    set (c := Z.pos w * 2 ^ (t + 1074 - K)).
    destruct (Z.le_gt_cases c q) as [H|H].
    + left. apply Z.mul_le_mono_nonneg_r; lia.
    + right. apply Z.mul_le_mono_nonneg_r; lia.
  - left.
    assert (Hp : 0 < 2 ^ (t + 1074)) by (apply NumberFacts.pow2_pos; lia).
    assert (Hhalf : 2 * 2 ^ (t + 1074) <= 2 ^ K).
    { rewrite <- Z.pow_succ_r by lia. apply Z.pow_le_mono_r; lia. }
    change (2 ^ 53) with 9007199254740992 in Hw.
    change (2 ^ 52) with 4503599627370496 in Hq. nia.
Qed.

(** ** Nearest, and even on a tie *)

Lemma nearest_opp (n v : Z) : nearest n v -> nearest (- n) (- v).
Proof.
  intros H m Hm. specialize (H (- m) (representable_opp m Hm)). lia.
Qed.

Lemma tie_opp (n v : Z) : tie (- n) (- v) -> tie n v.
Proof.
  intros (m & Hm & Hne & E). exists (- m).
  split; [apply representable_opp, Hm|]. split; lia.
Qed.

Lemma nearest_exact (n : Z) : nearest n n.
Proof. intros m _. lia. Qed.

Lemma tie_exact (n : Z) : ~ tie n n.
Proof. intros (m & _ & Hne & E). lia. Qed.

(** A value [q * G + rho] between two neighbours of the grid, rounded by the
    decision of round to nearest even. *)
Lemma nearest_decision (q q' rho G K : Z) :
  G = 2 ^ K -> 0 <= K -> 2 ^ 52 <= q -> 0 <= rho < G ->
  (q' = q /\ (2 * rho < G \/ (2 * rho = G /\ Z.even q = true)))
  \/ (q' = q + 1 /\ (G < 2 * rho \/ (2 * rho = G /\ Z.odd q = true))) ->
  nearest (q * G + rho) (q' * G)
  /\ (tie (q * G + rho) (q' * G) -> Z.even q' = true).
Proof.
  intros HG HK Hq Hrho Hdec.
  assert (HGpos : 0 < G) by (subst G; apply NumberFacts.pow2_pos; lia).
  change (2 ^ 52) with 4503599627370496 in Hq.
  assert (HX : G <= q * G) by nia.
  assert (Hgrid : forall m, representable m ->
            m <= q * G \/ (q + 1) * G <= m).
  { intros m Hm.
    destruct (representable_cases m Hm) as [->|(w & t & Hb & Hv)]; [left; lia|].
    pose proof (representable_grid w t K q Hb HK ltac:(lia)) as Hgr.
    rewrite <- HG in Hgr.
    assert (0 < Z.pos w * 2 ^ (t + 1074)).
    { apply NumberFacts.bounded_inv in Hb as [_ Ht].
      pose proof (NumberFacts.pow2_pos (t + 1074) ltac:(lia)). nia. }
    destruct Hv as [-> | ->]; [exact Hgr | left; lia]. }
  replace ((q + 1) * G) with (q * G + G) in Hgrid by ring.
  set (X := q * G) in *.
  assert (Hv : (q' * G = X /\ (2 * rho < G \/ (2 * rho = G /\ Z.even q' = true)))
               \/ (q' * G = X + G
                   /\ (G < 2 * rho \/ (2 * rho = G /\ Z.even q' = true)))).
  { destruct Hdec as [[-> H]|[-> H]]; [left; auto|right].
    split; [unfold X; ring|].
    destruct H as [H|[H Hodd]]; [left; exact H|right].
    split; [exact H|]. rewrite Z.add_1_r, Z.even_succ. exact Hodd. }
  clearbody X. split.
  - intros m Hm.
    destruct (Hgrid m Hm);
      destruct Hv as [[-> [H1|[H1 _]]]|[-> [H1|[H1 _]]]]; lia.
  - intros (m & Hm & Hne & E).
    destruct (Hgrid m Hm) as [Hg|Hg];
      destruct Hv as [[Ev [Hs|[_ Hev]]]|[Ev [Hs|[_ Hev]]]];
      try exact Hev; rewrite Ev in *; lia.
Qed.

(** ** The rounded value overflows from [OVERFLOW] on *)

Lemma long_overflow (q q' rho G K : Z) :
  G = 2 ^ K -> 0 <= K -> 2 ^ 52 <= q < 2 ^ 53 -> 0 <= rho < G ->
  (q' = q /\ (2 * rho < G \/ (2 * rho = G /\ Z.even q = true)))
  \/ (q' = q + 1 /\ (G < 2 * rho \/ (2 * rho = G /\ Z.odd q = true))) ->
  (if q' <? 2 ^ 53 then K <= 2045 else K + 1 <= 2045)
  <-> q * G + rho < OVERFLOW.
Proof.
  intros HG HK Hq Hrho Hdec. rewrite OVERFLOW_eq.
  assert (HH : 0 < 2 ^ 2044) by (apply NumberFacts.pow2_pos; lia).
  assert (HGpos : 0 < G) by (subst G; apply NumberFacts.pow2_pos; lia).
  assert (Hmax : q = 9007199254740991 -> Z.even q = false)
    by (intros ->; reflexivity).
  change (2 ^ 52) with 4503599627370496 in *.
  change (2 ^ 53) with 9007199254740992 in *.
  change (2 ^ 54) with 18014398509481984.
  assert (HGH : (K <= 2044 /\ G <= 2 ^ 2044)
                \/ (K = 2045 /\ G = 2 * 2 ^ 2044)
                \/ (2046 <= K /\ 4 * 2 ^ 2044 <= G)).
  { subst G. destruct (Z.le_gt_cases K 2044) as [H|H];
      [left; split; [exact H | apply Z.pow_le_mono_r; lia]|].
    right. destruct (Z.eq_dec K 2045) as [->|Hne].
    - left. split; [reflexivity|].
      rewrite <- Z.pow_succ_r by lia. reflexivity.
    - right. split; [lia|].
      replace (4 * 2 ^ 2044) with (2 ^ 2046)
        by (change 2046 with (Z.succ (Z.succ 2044));
            rewrite !Z.pow_succ_r by lia; ring).
      apply Z.pow_le_mono_r; lia. }
  set (H := 2 ^ 2044) in *. clearbody H.
  destruct (Z.ltb_spec q' 9007199254740992) as [Hlt|Hge];
    destruct HGH as [[HK1 HG1]|[[HK1 HG1]|[HK1 HG1]]];
    (split; [intros HKle | intros Hlt']); try lia; try nia.
  destruct (Z.eq_dec q 9007199254740991) as [E|E]; [|nia].
  specialize (Hmax E).
  destruct Hdec as [[_ [Hd|[_ Hd]]]|[Hd _]]; [nia | congruence | lia].
Qed.

(** ** Correct rounding *)

Lemma correctlyRounded_exact (n : Z) (r : number) :
  valid r -> scaled r = Some n -> correctlyRounded n r.
Proof.
  intros Vr Er. split; [exact Vr|].
  assert (Hb : Z.abs n < OVERFLOW)
    by (apply representable_bound; exists r; auto).
  destruct (Z.ltb_spec (Z.abs n) OVERFLOW); [|lia].
  exists n. split; [exact Er|]. split; [apply nearest_exact|].
  intros Ht. destruct (tie_exact n Ht).
Qed.

Lemma correctlyRounded_finite (s : bool) (N V : Z) (w : positive) (t : Z) :
  0 < N -> bounded prec emax w t = true ->
  Z.pos w * 2 ^ (t + 1074) = V ->
  N < OVERFLOW -> nearest N V -> (tie N V -> Z.even (Z.pos w) = true) ->
  correctlyRounded (cond_Zopp s N) (S754_finite s w t).
Proof.
  intros HN Hb HV Hov Hnear Htie. split; [exact Hb|].
  assert (Habs : Z.abs (cond_Zopp s N) = N) by (destruct s; simpl; lia).
  rewrite Habs. destruct (Z.ltb_spec N OVERFLOW); [|lia].
  exists (cond_Zopp s V).
  rewrite NumberFacts.scaled_finite, <- NumberFacts.cond_Zopp_mul, HV.
  split; [reflexivity|]. destruct s; simpl cond_Zopp.
  - split; [apply nearest_opp, Hnear|].
    intros Ht. apply Htie, tie_opp, Ht.
  - split; [exact Hnear | exact Htie].
Qed.

Lemma correctlyRounded_infinite (s : bool) (N : Z) :
  0 < N -> OVERFLOW <= N ->
  correctlyRounded (cond_Zopp s N) (S754_infinity s).
Proof.
  intros HN Hov. split; [reflexivity|].
  assert (Habs : Z.abs (cond_Zopp s N) = N) by (destruct s; simpl; lia).
  rewrite Habs. destruct (Z.ltb_spec N OVERFLOW); [lia|].
  f_equal. destruct s; simpl; symmetry; [apply Z.ltb_lt | apply Z.ltb_ge]; lia.
Qed.

(** A mantissa of more than 53 digits: rounded to 53. *)
Lemma binary_round_long_correct (s : bool) (M : positive) (e k : Z) :
  0 < k -> Z.pos (digits2_pos M) = 53 + k -> -1074 <= e <= 971 ->
  correctlyRounded (cond_Zopp s (Z.pos M * 2 ^ (e + 1074)))
    (binary_round prec emax s M e).
Proof.
  intros Hk Hd He.
  destruct (binary_round_long s M e k Hk Hd ltac:(lia)) as (q' & Hdec & ->).
  pose proof (long_quotient M k Hk Hd) as Hq.
  assert (Hp : 0 < 2 ^ k) by (apply NumberFacts.pow2_pos; lia).
  assert (HE : 0 < 2 ^ (e + 1074)) by (apply NumberFacts.pow2_pos; lia).
  pose proof (Z.mod_pos_bound (Z.pos M) (2 ^ k) Hp) as Hrem.
  pose proof (Z.div_mod (Z.pos M) (2 ^ k) ltac:(lia)) as Hdm.
  set (q := Z.pos M / 2 ^ k) in *. set (rem := Z.pos M mod 2 ^ k) in *.
  set (K := k + (e + 1074)).
  assert (HG : 2 ^ K = 2 ^ k * 2 ^ (e + 1074))
    by (unfold K; apply Z.pow_add_r; lia).
  set (G := 2 ^ K) in *. set (rho := rem * 2 ^ (e + 1074)).
  assert (HN : Z.pos M * 2 ^ (e + 1074) = q * G + rho)
    by (rewrite HG, Hdm; unfold rho; ring).
  assert (Hrho : 0 <= rho < G) by (unfold rho; nia).
  assert (Hdec' :
            (q' = q /\ (2 * rho < G \/ (2 * rho = G /\ Z.even q = true)))
            \/ (q' = q + 1
                /\ (G < 2 * rho \/ (2 * rho = G /\ Z.odd q = true)))).
  { unfold rho.
    destruct Hdec as [[Eq [Hl|[Hl Hev]]]|[Eq [Hl|[Hl Hod]]]].
    - left. split; [exact Eq|]. left. nia.
    - left. split; [exact Eq|]. right. split; [nia | exact Hev].
    - right. split; [exact Eq|]. left. nia.
    - right. split; [exact Eq|]. right. split; [nia | exact Hod]. }
  assert (HK : 0 <= K) by (unfold K; lia).
  destruct (nearest_decision q q' rho G K eq_refl HK ltac:(lia) Hrho Hdec')
    as [Hnear Htie].
  pose proof (long_overflow q q' rho G K eq_refl HK Hq Hrho Hdec') as Hov.
  assert (Hq' : 2 ^ 52 <= q' <= 2 ^ 53)
    by (destruct Hdec as [[-> _]|[-> _]]; lia).
  assert (HNpos : 0 < q * G + rho)
    by (change (2 ^ 52) with 4503599627370496 in Hq; nia).
  rewrite HN.
  destruct (Z.ltb_spec q' (2 ^ 53)) as [Hlt|Hge].
  - destruct (Z.leb_spec (e + k) 971) as [Hfin|Hinf].
    + apply correctlyRounded_finite with (V := q' * G).
      * exact HNpos.
      * unfold bounded, canonical_mantissa. apply andb_true_iff.
        split; [apply Z.eqb_eq | apply Z.leb_le; unfold prec, emax; lia].
        rewrite (digits2_pos_unique (Z.to_pos q') 53)
          by (rewrite Z2Pos.id by lia; simpl (53 - 1); lia).
        unfold fexp, emin, prec, emax. lia.
      * rewrite Z2Pos.id by lia. unfold G, K. do 2 f_equal. lia.
      * apply Hov. unfold K. lia.
      * exact Hnear.
      * rewrite Z2Pos.id by lia. exact Htie.
    + apply correctlyRounded_infinite; [exact HNpos|].
      destruct (Z.le_gt_cases OVERFLOW (q * G + rho)) as [H|H]; [exact H|].
      apply Hov in H. unfold K in H. lia.
  - assert (Eq' : q' = 2 ^ 53) by lia.
    destruct (Z.leb_spec (e + k + 1) 971) as [Hfin|Hinf].
    + apply correctlyRounded_finite with (V := q' * G).
      * exact HNpos.
      * unfold bounded, canonical_mantissa. apply andb_true_iff.
        split; [apply Z.eqb_eq | apply Z.leb_le; unfold prec, emax; lia].
        change (Z.pos (digits2_pos 4503599627370496)) with 53.
        unfold fexp, emin, prec, emax. lia.
      * rewrite Eq'. unfold G, K.
        replace (e + k + 1 + 1074) with (Z.succ (k + (e + 1074))) by lia.
        rewrite Z.pow_succ_r by lia.
        change (2 ^ 53) with 9007199254740992. lia.
      * apply Hov. unfold K. lia.
      * exact Hnear.
      * intros _. reflexivity.
    + apply correctlyRounded_infinite; [exact HNpos|].
      destruct (Z.le_gt_cases OVERFLOW (q * G + rho)) as [H|H]; [exact H|].
      apply Hov in H. unfold K in H. lia.
Qed.

(** A mantissa of at most 53 digits: nothing to round. *)
Lemma binary_round_short_correct (s : bool) (M : positive) (e : Z) :
  Z.pos (digits2_pos M) <= 53 -> -1074 <= e <= 971 ->
  correctlyRounded (cond_Zopp s (Z.pos M * 2 ^ (e + 1074)))
    (binary_round prec emax s M e).
Proof.
  intros Hd He. set (d := Z.pos (digits2_pos M)) in *.
  set (t := Z.max (d + e - 53) (-1074)).
  set (w := Pos.shiftl M (Z.to_N (e - t))).
  assert (Ht : -1074 <= t <= e) by (unfold t; lia).
  assert (Hb : bounded prec emax w t = true).
  { unfold bounded, canonical_mantissa. apply andb_true_iff.
    split; [apply Z.eqb_eq | apply Z.leb_le; unfold prec, emax; lia].
    unfold w. rewrite NumberFacts.digits2_pos_shiftl, Z2N.id by lia.
    fold d. unfold fexp, emin, prec, emax. lia. }
  assert (Hv : Z.pos M * 2 ^ (e + 1074) = Z.pos w * 2 ^ (t + 1074)).
  { unfold w. rewrite NumberFacts.Zpos_shiftl, Z2N.id, <- Z.mul_assoc by lia.
    rewrite <- Z.pow_add_r by lia. do 2 f_equal. lia. }
  rewrite (NumberFacts.binary_round_exact s M e w t Hb ltac:(lia) Hv).
  apply correctlyRounded_exact; [exact Hb|].
  rewrite NumberFacts.scaled_finite, <- NumberFacts.cond_Zopp_mul, Hv.
  reflexivity.
Qed.

Lemma binary_round_correct (s : bool) (M : positive) (e : Z) :
  -1074 <= e <= 971 ->
  correctlyRounded (cond_Zopp s (Z.pos M * 2 ^ (e + 1074)))
    (binary_round prec emax s M e).
Proof.
  intros He.
  destruct (Z.le_gt_cases (Z.pos (digits2_pos M)) 53) as [H|H].
  - apply binary_round_short_correct; assumption.
  - apply (binary_round_long_correct s M e (Z.pos (digits2_pos M) - 53));
      [lia | lia | exact He].
Qed.

(** The sum of two numbers is their exact sum, correctly rounded. *)
Lemma plus_correctlyRounded (x y : number) (a b : Z) :
  valid x -> valid y -> scaled x = Some a -> scaled y = Some b ->
  correctlyRounded (a + b) (plus x y).
Proof.
  unfold valid.
  destruct x as [sx| | |sx mx ex], y as [sy| | |sy my ey];
    try discriminate; cbn [valid_binary]; intros Vx Vy Ex Ey.
  - injection Ex as <-. injection Ey as <-.
    apply correctlyRounded_exact; destruct sx, sy; reflexivity.
  - injection Ex as <-. rewrite Z.add_0_l.
    apply correctlyRounded_exact; [exact Vy | exact Ey].
  - injection Ey as <-. rewrite Z.add_0_r.
    apply correctlyRounded_exact; [exact Vx | exact Ex].
  - rewrite NumberFacts.scaled_finite in Ex, Ey.
    injection Ex as <-. injection Ey as <-.
    pose proof (NumberFacts.bounded_inv _ _ Vx) as [_ Hx].
    pose proof (NumberFacts.bounded_inv _ _ Vy) as [_ Hy].
    rewrite <- (NumberFacts.aligned_sum sx sy mx my ex ey) by lia.
    unfold plus, SFadd.
    set (ez := Z.min ex ey).
    set (S := cond_Zopp sx (Z.pos (fst (shl_align mx ex ez)))
              + cond_Zopp sy (Z.pos (fst (shl_align my ey ez)))).
    assert (Hez : -1074 <= ez <= 971) by (unfold ez; lia).
    destruct S as [|M|M]; cbn [binary_normalize].
    + apply correctlyRounded_exact; reflexivity.
    + exact (binary_round_correct false M ez Hez).
    + rewrite <- Pos2Z.opp_pos, Z.mul_opp_l.
      exact (binary_round_correct true M ez Hez).
Qed.

(** A sum of value 0 is [+0], unless both numbers are [-0]. *)
Lemma plus_zero_sum (x y : number) (a b : Z) :
  valid x -> valid y -> scaled x = Some a -> scaled y = Some b ->
  a + b = 0 ->
  plus x y = S754_zero false
  \/ (x = S754_zero true /\ y = S754_zero true /\ plus x y = S754_zero true).
Proof.
  unfold valid.
  destruct x as [sx| | |sx mx ex], y as [sy| | |sy my ey];
    try discriminate; cbn [valid_binary]; intros Vx Vy Ex Ey Hab.
  - destruct sx, sy; auto.
  - injection Ex as <-.
    assert (Ey0 : scaled (S754_finite sy my ey) = Some 0)
      by (rewrite Ey; f_equal; lia).
    pose proof (NumberFacts.valid_scaled_unique (S754_zero false)
                  (S754_finite sy my ey) 0 eq_refl Vy eq_refl Ey0) as Hc.
    destruct sy; discriminate Hc.
  - injection Ey as <-.
    assert (Ex0 : scaled (S754_finite sx mx ex) = Some 0)
      by (rewrite Ex; f_equal; lia).
    pose proof (NumberFacts.valid_scaled_unique (S754_zero false)
                  (S754_finite sx mx ex) 0 eq_refl Vx eq_refl Ex0) as Hc.
    destruct sx; discriminate Hc.
  - left. rewrite NumberFacts.scaled_finite in Ex, Ey.
    injection Ex as <-. injection Ey as <-.
    apply NumberFacts.plus_finite_zero; assumption.
Qed.

(** An infinity absorbs what is added to it, but for NaN and the other
    infinity. *)
Lemma plus_infinity (s : bool) (u : number) :
  plus (S754_infinity s) u
  = if isNaN u || strictEquals u (S754_infinity (negb s)) then NaN
    else S754_infinity s.
Proof. destruct s, u as [[]|[]| |[] m e]; reflexivity. Qed.

Lemma plus_NaN (u : number) : plus NaN u = NaN.
Proof. reflexivity. Qed.

End RoundingFacts.

(** * The utility functions *)

Lemma plainChar_count_AT (s : list N) :
  forallb plainChar s = true -> count_occ N.eq_dec s AT = 0%nat.
Proof.
  induction s as [|c s IH]; [reflexivity|].
  cbn [forallb]. intros H. apply andb_true_iff in H as [Hc Hs].
  unfold plainChar in Hc. apply andb_true_iff in Hc as [_ Hc].
  apply negb_true_iff, N.eqb_neq in Hc.
  rewrite count_occ_cons_neq by exact Hc. apply IH, Hs.
Qed.

Lemma emailShape_one_AT (s : list N) :
  emailShape s -> count_occ N.eq_dec s AT = 1%nat.
Proof.
  intros (loc & dom & tld & -> & _ & _ & _ & Hloc & Hdom & Htld).
  rewrite !count_occ_app.
  rewrite (plainChar_count_AT loc Hloc), (plainChar_count_AT dom Hdom),
    (plainChar_count_AT tld Htld).
  reflexivity.
Qed.

(** C3: [isValidEmail] accepts a string exactly when it is one or more
    characters that are neither white space nor [@], one [@], one or more such
    characters, a dot, one or more such characters; an accepted string holds
    exactly one [@]; and the five examples evaluate as stated. *)
Theorem isValidEmail_iff_emailShape :
  (forall candidate, isValidEmail candidate = true <-> emailShape candidate)
  /\ (forall candidate, isValidEmail candidate = true ->
        count_occ N.eq_dec candidate AT = 1%nat)
  /\ isValidEmail (str "test@example.com") = true
  /\ isValidEmail (str "invalid-email") = false
  /\ isValidEmail (str "") = false
  /\ isValidEmail (str "a@b.c") = true
  /\ isValidEmail (str "a@b") = false.
Proof.
  split; [exact RegExpFacts.isValidEmail_emailShape|].
  split; [|repeat split].
  intros candidate H.
  apply emailShape_one_AT, RegExpFacts.isValidEmail_emailShape, H.
Qed.

(** C8, as stated, fails: on the numbers [2 ^ 53], 1 and 1 the order of the
    additions shows, [(2 ^ 53 + 1) + 1] being [2 ^ 53] and [2 ^ 53 + (1 + 1)]
    being [2 ^ 53 + 2]; [add] is not associative on all numbers. *)
Lemma add_not_associative :
  valid (ofZ (2 ^ 53)) /\ valid (ofZ 1)
  /\ add (add (ofZ (2 ^ 53)) (ofZ 1)) (ofZ 1)
     <> add (ofZ (2 ^ 53)) (add (ofZ 1) (ofZ 1))
  /\ strictEquals (add (add (ofZ (2 ^ 53)) (ofZ 1)) (ofZ 1))
       (add (ofZ (2 ^ 53)) (add (ofZ 1) (ofZ 1))) = false.
Proof.
  split; [reflexivity|]. split; [reflexivity|].
  split; [vm_compute; discriminate | vm_compute; reflexivity].
Qed.

(** C8, amended: for all numbers [x] and [y] other than NaN and the
    infinities, [add x y] is the exact sum of their values correctly rounded:
    the number nearest to it, the one with the even mantissa when two are
    equally near, the infinity of its sign from [2 ^ 1024 - 2 ^ 970] on, and
    [+0] for a sum of 0 unless both are [-0]; so it is the exact sum whenever
    that is the value of a number.  [add] is commutative on all numbers, and
    adding 0 to a number other than NaN gives a number strictly equal to it.
    An infinity absorbs what is added to it, but for NaN and the infinity of
    the other sign, which give NaN, as NaN does with everything.
    It is associative when the three sums involved are values of numbers, as
    on safe integers with safe sums, where it is the addition of integers.
    [add(2, 3)] is 5 and [add(-1, 1)] is 0. *)
Theorem add_correctly_rounded (x y z : number) (a b c : Z) :
  valid x -> valid y -> valid z ->
  scaled x = Some a -> scaled y = Some b -> scaled z = Some c ->
  correctlyRounded (a + b) (add x y)
  /\ (a + b = 0 ->
      add x y = S754_zero false
      \/ (x = S754_zero true /\ y = S754_zero true /\ add x y = S754_zero true))
  /\ (representable (a + b) -> scaled (add x y) = Some (a + b))
  /\ add x y = add y x
  /\ (representable (a + b) -> representable (b + c) ->
      representable (a + b + c) ->
      strictEquals (add (add x y) z) (add x (add y z)) = true)
  /\ (forall u v : number, add u v = add v u)
  /\ (forall u : number, isNaN u = false ->
        strictEquals (add u (ofZ 0)) u = true)
  /\ (forall (s : bool) (u : number),
        add (S754_infinity s) u
        = if isNaN u || strictEquals u (S754_infinity (negb s)) then NaN
          else S754_infinity s)
  /\ (forall u : number, add NaN u = NaN)
  /\ (forall i j k : Z,
        isSafe i -> isSafe j -> isSafe k ->
        isSafe (i + j) -> isSafe (j + k) -> isSafe (i + j + k) ->
        add (ofZ i) (ofZ j) = ofZ (i + j)
        /\ add (add (ofZ i) (ofZ j)) (ofZ k) = add (ofZ i) (add (ofZ j) (ofZ k))
        /\ add (ofZ i) (ofZ 0) = ofZ i)
  /\ add (ofZ 2) (ofZ 3) = ofZ 5
  /\ add (ofZ (-1)) (ofZ 1) = ofZ 0.
Proof.
  intros Vx Vy Vz Ex Ey Ez. unfold add.
  split; [exact (RoundingFacts.plus_correctlyRounded x y a b Vx Vy Ex Ey)|].
  split; [exact (RoundingFacts.plus_zero_sum x y a b Vx Vy Ex Ey)|].
  split; [intros Rab; exact (proj1 (NumberFacts.plus_exact x y a b Vx Vy Ex Ey Rab))|].
  split; [apply NumberFacts.plus_comm|].
  split; [exact (NumberFacts.plus_assoc_exact x y z a b c Vx Vy Vz Ex Ey Ez)|].
  split; [exact NumberFacts.plus_comm|].
  split; [exact NumberFacts.plus_zero_r|].
  split; [exact RoundingFacts.plus_infinity|].
  split; [exact RoundingFacts.plus_NaN|].
  split; [|split; reflexivity].
  intros i j k Hi Hj Hk Hij Hjk Hijk.
  assert (H0 : isSafe 0) by (apply NumberFacts.isSafe_bound; reflexivity).
  split; [apply NumberFacts.plus_ofZ; assumption|].
  split.
  - rewrite (NumberFacts.plus_ofZ i j), (NumberFacts.plus_ofZ j k) by assumption.
    rewrite !NumberFacts.plus_ofZ; try assumption.
    + f_equal. lia.
    + replace (i + (j + k)) with (i + j + k) by lia. assumption.
  - rewrite NumberFacts.plus_ofZ; rewrite ?Z.add_0_r; trivial.
Qed.

(** C8 at [2 ^ 53] and 1, where the sum is rounded, and at 0.5, 0.25 and
    0.125, where the sums are exact; values in units of [2 ^ -1074]. *)
Lemma add_correctly_rounded_witness :
  (valid (ofZ (2 ^ 53)) /\ valid (ofZ 1)
   /\ scaled (ofZ (2 ^ 53)) = Some (2 ^ 53 * 2 ^ 1074)
   /\ scaled (ofZ 1) = Some (2 ^ 1074)
   /\ correctlyRounded (2 ^ 53 * 2 ^ 1074 + 2 ^ 1074)
        (add (ofZ (2 ^ 53)) (ofZ 1)))
  /\ (valid half /\ valid quarter /\ valid eighth
      /\ scaled half = Some (2 ^ 1073)
      /\ scaled (add half quarter) = Some (2 ^ 1073 + 2 ^ 1072)
      /\ strictEquals (add (add half quarter) eighth)
           (add half (add quarter eighth)) = true).
Proof.
  split.
  - destruct (add_correctly_rounded (ofZ (2 ^ 53)) (ofZ 1) (ofZ 1)
                (2 ^ 53 * 2 ^ 1074) (2 ^ 1074) (2 ^ 1074))
      as (H1 & _); try reflexivity.
    do 4 (split; [reflexivity|]). exact H1.
  - destruct (add_correctly_rounded half quarter eighth
                (2 ^ 1073) (2 ^ 1072) (2 ^ 1071))
      as (_ & _ & H3 & _ & H5 & _); try reflexivity.
    do 4 (split; [reflexivity|]). split.
    + apply H3. exists (S754_finite false 6755399441055744 (-53)).
      split; vm_compute; reflexivity.
    + apply H5.
      * exists (S754_finite false 6755399441055744 (-53)).
        split; vm_compute; reflexivity.
      * exists (S754_finite false 6755399441055744 (-54)).
        split; vm_compute; reflexivity.
      * exists (S754_finite false 7881299347898368 (-53)).
        split; vm_compute; reflexivity.
Defined.

(** Past the safe integers sums are rounded, and the order of the additions
    shows: [(2^53 + 1) + 1] is [2^53], [2^53 + (1 + 1)] is [2^53 + 2]. *)
Remark add_rounds_past_safe_integers :
  add (add (ofZ (2 ^ 53)) (ofZ 1)) (ofZ 1) = ofZ (2 ^ 53)
  /\ add (ofZ (2 ^ 53)) (add (ofZ 1) (ofZ 1)) = ofZ (2 ^ 53 + 2)
  /\ strictEquals (ofZ (2 ^ 53)) (ofZ (2 ^ 53 + 2)) = false.
Proof. repeat split. Qed.

(** C4, as stated, fails on its last clause: with [PORT=eighty], a malformed
    value, the port is not the documented default (and the field is not an
    optional one): it is NaN. *)
Lemma malformed_port_not_default :
  port (config {[ "PORT" := str "eighty" ]}) <> port defaults
  /\ isNaN (port (config {[ "PORT" := str "eighty" ]})) = true.
Proof. split; [discriminate | reflexivity]. Qed.

(** C4, amended: the three operations return a value of their result type
    on every input and signal no error: evaluating the configuration gives a
    snapshot and hands the environment back, and its port is a number; the
    sum of two numbers is a number; [isValidEmail] gives a boolean.  A variable
    that is not set (or, for NODE_ENV and PORT, set to the empty string)
    resolves to the documented default or to an absent value; a value of PORT
    with no integer to read resolves to NaN. *)
Theorem operations_total (env : gmap string (list N)) (a b : number)
    (email : list N) :
  (exists c : Config,
      evalConfig env = (c, env)
      /\ valid (port c)
      /\ (env !! "NODE_ENV" = None \/ env !! "NODE_ENV" = Some [] ->
          nodeEnv c = str "development")
      /\ (env !! "PORT" = None \/ env !! "PORT" = Some [] -> port c = ofZ 3000)
      /\ (env !! "DATABASE_URL" = None -> databaseUrl c = None)
      /\ (env !! "REDIS_URL" = None -> redisUrl c = None)
      /\ (forall v, env !! "PORT" = Some v -> v <> [] ->
            isNaN (port c) = negb (startsWithDigit v)))
  /\ (valid a -> valid b -> valid (add a b))
  /\ (exists r : bool, isValidEmail email = r).
Proof.
  split; [|split; [apply NumberFacts.plus_valid | eexists; reflexivity]].
  eexists. split; [apply ConfigFacts.evalConfig_unfold|].
  cbn [nodeEnv port databaseUrl redisUrl].
  split; [apply ParseIntFacts.parseInt_valid|].
  split; [intros [-> | ->]; reflexivity|].
  split; [intros [-> | ->]; reflexivity|].
  split; [intros ->; reflexivity|].
  split; [intros ->; reflexivity|].
  intros v -> Hne. rewrite ConfigFacts.orElse_nonempty by exact Hne.
  apply ParseIntFacts.parseInt_isNaN.
Qed.

(** C4 at the empty environment and at [PORT=eighty]. *)
Lemma operations_total_witness :
  (exists c, evalConfig ∅ = (c, ∅) /\ c = defaults)
  /\ (exists c, evalConfig {[ "PORT" := str "eighty" ]}
                = (c, {[ "PORT" := str "eighty" ]})
                /\ isNaN (port c) = true).
Proof.
  split.
  - destruct (operations_total ∅ NaN NaN []) as [(c & E & _) _].
    exists c. split; [exact E|].
    rewrite ConfigFacts.evalConfig_unfold in E. injection E as <-. reflexivity.
  - destruct (operations_total {[ "PORT" := str "eighty" ]} NaN NaN [])
      as [(c & E & _ & _ & _ & _ & _ & H) _].
    exists c. split; [exact E|].
    apply (H (str "eighty")); [reflexivity | discriminate].
Defined.

(** * More on the port *)

Module PortFacts.

Lemma trimStart_app (ws s : list N) :
  forallb isWhiteSpace ws = true -> trimStart (ws ++ s) = trimStart s.
Proof.
  induction ws as [|c ws IH]; [reflexivity|].
  cbn [forallb]. intros H. apply andb_true_iff in H as [Hc Hws].
  simpl. rewrite Hc. apply IH, Hws.
Qed.

Lemma trimStart_idem (s : list N) : trimStart (trimStart s) = trimStart s.
Proof.
  induction s as [|c s IH]; [reflexivity|].
  simpl. destruct (isWhiteSpace c) eqn:E; [exact IH|].
  simpl. rewrite E. reflexivity.
Qed.

(** [parseInt] sees its argument through [trimStart] only. *)
Lemma parseInt_trimStart (s : list N) (radix : Z) :
  parseInt (trimStart s) radix = parseInt s radix.
Proof. unfold parseInt. rewrite trimStart_idem. reflexivity. Qed.

Lemma parseInt_leading_whitespace (ws s : list N) (radix : Z) :
  forallb isWhiteSpace ws = true -> parseInt (ws ++ s) radix = parseInt s radix.
Proof.
  intros H. rewrite <- (parseInt_trimStart (ws ++ s)), <- (parseInt_trimStart s).
  rewrite (trimStart_app ws s H). reflexivity.
Qed.

Lemma isDigitValue_cases (d : Z) :
  isDigitValue d = true ->
  d = 0 \/ d = 1 \/ d = 2 \/ d = 3 \/ d = 4 \/ d = 5 \/ d = 6 \/ d = 7
  \/ d = 8 \/ d = 9.
Proof.
  unfold isDigitValue. intros H. apply andb_true_iff in H as [H1 H2].
  apply Z.leb_le in H1. apply Z.leb_le in H2. lia.
Qed.

Ltac each_digit H :=
  apply isDigitValue_cases in H;
  repeat (destruct H as [H|H]); subst; reflexivity.

Lemma digitUnit_radixDigit (d : Z) :
  isDigitValue d = true -> radixDigit 10 (digitUnit d) = Some d.
Proof. intros H. each_digit H. Qed.

Lemma digitUnit_not_space (d : Z) :
  isDigitValue d = true -> isWhiteSpace (digitUnit d) = false.
Proof. intros H. each_digit H. Qed.

Lemma digitUnit_not_sign (d : Z) :
  isDigitValue d = true -> isSign (digitUnit d) = false.
Proof. intros H. each_digit H. Qed.

Lemma digitUnit_not_minus (d : Z) :
  isDigitValue d = true -> (digitUnit d =? 45)%N = false.
Proof. intros H. each_digit H. Qed.

Lemma digitPrefix_noDigitAhead (rest : list N) :
  noDigitAhead rest = true -> digitPrefix 10 rest = [].
Proof.
  destruct rest as [|c rest]; [reflexivity|]. simpl. intros H.
  apply negb_true_iff in H.
  rewrite (ParseIntFacts.radixDigit_other c H). reflexivity.
Qed.

(** The digits written are the digits read, up to the first code unit that
    is not a digit. *)
Lemma digitPrefix_digitsString (ds : list Z) (rest : list N) :
  forallb isDigitValue ds = true -> noDigitAhead rest = true ->
  digitPrefix 10 (digitsString ds ++ rest) = ds.
Proof.
  intros Hds Hrest. induction ds as [|d ds IH].
  - apply digitPrefix_noDigitAhead, Hrest.
  - cbn [forallb] in Hds. apply andb_true_iff in Hds as [Hd Hds].
    cbn [digitsString map app digitPrefix].
    rewrite (digitUnit_radixDigit d Hd). f_equal. apply IH, Hds.
Qed.

Lemma fold_digits_nonneg (ds : list Z) (acc : Z) :
  0 <= acc -> forallb isDigitValue ds = true ->
  0 <= fold_left (fun a d => a * 10 + d) ds acc.
Proof.
  revert acc. induction ds as [|d ds IH]; intros acc Hacc Hds; [exact Hacc|].
  cbn [forallb] in Hds. apply andb_true_iff in Hds as [Hd Hds].
  unfold isDigitValue in Hd. apply andb_true_iff in Hd as [Hd _].
  apply Z.leb_le in Hd. simpl. apply IH; [lia | exact Hds].
Qed.

Lemma mathInt_nonneg (ds : list Z) :
  forallb isDigitValue ds = true -> 0 <= mathInt 10 ds.
Proof. intros H. unfold mathInt. apply fold_digits_nonneg; [lia | exact H]. Qed.

(** A string that starts with a digit is read from its first code unit. *)
Lemma parseInt_digitsString (ds : list Z) (rest : list N) :
  ds <> [] -> forallb isDigitValue ds = true -> noDigitAhead rest = true ->
  parseInt (digitsString ds ++ rest) 10 = ofZ (mathInt 10 ds).
Proof.
  intros Hne Hds Hrest. rewrite ParseIntFacts.parseInt_10.
  destruct ds as [|d ds]; [congruence|].
  pose proof Hds as Hds'. cbn [forallb] in Hds'.
  apply andb_true_iff in Hds' as [Hd _].
  assert (Htrim : trimStart (digitsString (d :: ds) ++ rest)
                  = digitsString (d :: ds) ++ rest).
  { cbn [digitsString map app trimStart].
    rewrite (digitUnit_not_space d Hd). reflexivity. }
  rewrite Htrim.
  assert (Hstrip : stripSign (digitsString (d :: ds) ++ rest)
                   = digitsString (d :: ds) ++ rest).
  { cbn [digitsString map app stripSign].
    rewrite (digitUnit_not_sign d Hd). reflexivity. }
  rewrite Hstrip, (digitPrefix_digitsString (d :: ds) rest Hds Hrest).
  assert (Hsign : signOf (digitsString (d :: ds) ++ rest) = 1).
  { cbn [digitsString map app signOf].
    rewrite (digitUnit_not_minus d Hd). reflexivity. }
  rewrite Hsign. cbv zeta.
  destruct (Z.eqb_spec (mathInt 10 (d :: ds)) 0) as [E|E].
  - rewrite E. reflexivity.
  - rewrite Z.mul_1_l. reflexivity.
Qed.

(** The same after a minus sign. *)
Lemma parseInt_minus_digitsString (ds : list Z) (rest : list N) :
  ds <> [] -> forallb isDigitValue ds = true -> noDigitAhead rest = true ->
  parseInt (MINUS :: digitsString ds ++ rest) 10
  = if mathInt 10 ds =? 0 then S754_zero true else ofZ (- mathInt 10 ds).
Proof.
  intros Hne Hds Hrest. rewrite ParseIntFacts.parseInt_10.
  change (trimStart (MINUS :: digitsString ds ++ rest))
    with (MINUS :: digitsString ds ++ rest).
  change (stripSign (MINUS :: digitsString ds ++ rest))
    with (digitsString ds ++ rest).
  change (signOf (MINUS :: digitsString ds ++ rest)) with (-1).
  rewrite (digitPrefix_digitsString ds rest Hds Hrest).
  destruct ds as [|d ds]; [congruence|]. cbv zeta.
  destruct (mathInt 10 (d :: ds) =? 0); [reflexivity|].
  f_equal; lia.
Qed.

(** Whatever the string and the radix: NaN, [-0], or the number of an
    integer. *)
Lemma parseInt_integral (s : list N) (radix : Z) :
  parseInt s radix = NaN \/ parseInt s radix = S754_zero true
  \/ exists z : Z, parseInt s radix = ofZ z.
Proof.
  unfold parseInt.
  destruct ((radix =? 0) || (2 <=? radix) && (radix <=? 36)); [|left; reflexivity].
  set (choice := match (if (radix =? 0) || (radix =? 16)
                          then stripHexPrefix (stripSign (trimStart s))
                          else None) with
                 | Some body' => (16, body')
                 | None => (if radix =? 0 then 10 else radix,
                            stripSign (trimStart s))
                 end).
  destruct choice as [R body].
  destruct (digitPrefix R body) as [|d ds]; [left; reflexivity|].
  destruct (mathInt R (d :: ds) =? 0).
  - destruct (signOf (trimStart s) <? 0);
      [right; left; reflexivity | right; right; exists 0; reflexivity].
  - right; right. eexists. reflexivity.
Qed.

Lemma port_insert (env : gmap string (list N)) (v : list N) :
  v <> [] -> port (config (<[ "PORT" := v ]> env)) = parseInt v 10.
Proof.
  intros Hne. rewrite ConfigFacts.port_config, lookup_insert_eq.
  rewrite ConfigFacts.orElse_nonempty by exact Hne. reflexivity.
Qed.

End PortFacts.

(** * The snapshot, field by field *)

(** X1: [nodeEnv] is never the empty string. *)
Theorem nodeEnv_never_empty (env : gmap string (list N)) :
  nodeEnv (config env) <> [].
Proof.
  rewrite ConfigFacts.nodeEnv_config.
  destruct (env !! "NODE_ENV") as [[|c v]|]; discriminate.
Qed.

(** X2: the port never has a fractional part: it is NaN, [-0], or the number
    of an integer. *)
Theorem port_is_integral (env : gmap string (list N)) :
  port (config env) = NaN
  \/ port (config env) = S754_zero true
  \/ exists z : Z, port (config env) = ofZ z.
Proof. rewrite ConfigFacts.port_config. apply PortFacts.parseInt_integral. Qed.

(** X3: white space in front of a non-empty value of PORT changes nothing. *)
Theorem port_ignores_leading_whitespace (env : gmap string (list N))
    (ws v : list N) :
  forallb isWhiteSpace ws = true ->
  v <> [] ->
  port (config (<[ "PORT" := ws ++ v ]> env))
  = port (config (<[ "PORT" := v ]> env)).
Proof.
  intros Hws Hv.
  rewrite !PortFacts.port_insert; [|exact Hv|].
  - apply PortFacts.parseInt_leading_whitespace, Hws.
  - destruct ws; [exact Hv | discriminate].
Qed.

(** X3 at a tab and a space before 8080. *)
Lemma port_ignores_leading_whitespace_witness :
  forallb isWhiteSpace [9%N; 32%N] = true
  /\ port (config {[ "PORT" := [9%N; 32%N] ++ str "8080" ]})
     = port (config {[ "PORT" := str "8080" ]}).
Proof.
  split; [reflexivity|].
  exact (port_ignores_leading_whitespace ∅ [9%N; 32%N] (str "8080")
           eq_refl ltac:(discriminate)).
Defined.

(** X4: when PORT starts with decimal digits, the port is the number of the
    integer they write, whatever follows the digits. *)
Theorem port_reads_leading_digits (env : gmap string (list N))
    (ds : list Z) (rest : list N) :
  ds <> [] ->
  forallb isDigitValue ds = true ->
  noDigitAhead rest = true ->
  port (config (<[ "PORT" := digitsString ds ++ rest ]> env))
  = ofZ (mathInt 10 ds).
Proof.
  intros Hne Hds Hrest. rewrite PortFacts.port_insert.
  - apply PortFacts.parseInt_digitsString; assumption.
  - destruct ds; [congruence | discriminate].
Qed.

(** X4 at [PORT=8080.5px]. *)
Lemma port_reads_leading_digits_witness :
  digitsString [8; 0; 8; 0] ++ str ".5px" = str "8080.5px"
  /\ port (config {[ "PORT" := str "8080.5px" ]}) = ofZ 8080.
Proof.
  split; [reflexivity|].
  exact (port_reads_leading_digits ∅ [8; 0; 8; 0] (str ".5px")
           ltac:(discriminate) eq_refl eq_refl).
Defined.

(** X5: a minus sign in front of the digits is honoured: the port is the
    number of the negated integer ([-0] for zero); negative ports are not
    rejected. *)
Theorem port_reads_minus_sign (env : gmap string (list N))
    (ds : list Z) (rest : list N) :
  ds <> [] ->
  forallb isDigitValue ds = true ->
  noDigitAhead rest = true ->
  port (config (<[ "PORT" := MINUS :: digitsString ds ++ rest ]> env))
  = if mathInt 10 ds =? 0 then S754_zero true else ofZ (- mathInt 10 ds).
Proof.
  intros Hne Hds Hrest. rewrite PortFacts.port_insert by discriminate.
  apply PortFacts.parseInt_minus_digitsString; assumption.
Qed.

(** X5 at [PORT=-80]. *)
Lemma port_reads_minus_sign_witness :
  MINUS :: digitsString [8; 0] ++ [] = str "-80"
  /\ port (config {[ "PORT" := str "-80" ]}) = ofZ (-80).
Proof.
  split; [reflexivity|].
  exact (port_reads_minus_sign ∅ [8; 0] []
           ltac:(discriminate) eq_refl eq_refl).
Defined.

(** X6: when the digits of PORT write an integer up to [2 ^ 53 - 1], the
    port holds that integer exactly: no rounding. *)
Theorem port_exact_up_to_MAX_SAFE_INTEGER (env : gmap string (list N))
    (ds : list Z) (rest : list N) :
  ds <> [] ->
  forallb isDigitValue ds = true ->
  noDigitAhead rest = true ->
  mathInt 10 ds <= MAX_SAFE_INTEGER ->
  valid (port (config (<[ "PORT" := digitsString ds ++ rest ]> env)))
  /\ scaled (port (config (<[ "PORT" := digitsString ds ++ rest ]> env)))
     = Some (mathInt 10 ds * 2 ^ 1074).
Proof.
  intros Hne Hds Hrest Hmax.
  rewrite (port_reads_leading_digits env ds rest Hne Hds Hrest).
  apply NumberFacts.ofZ_valid_scaled.
  pose proof (PortFacts.mathInt_nonneg ds Hds) as H0.
  unfold isSafe. unfold MAX_SAFE_INTEGER in *. lia.
Qed.

(** X6 at [PORT=65535]. *)
Lemma port_exact_up_to_MAX_SAFE_INTEGER_witness :
  mathInt 10 [6; 5; 5; 3; 5] <= MAX_SAFE_INTEGER
  /\ scaled (port (config {[ "PORT" := str "65535" ]})) = Some (65535 * 2 ^ 1074).
Proof.
  assert (H : mathInt 10 [6; 5; 5; 3; 5] <= MAX_SAFE_INTEGER)
    by (vm_compute; discriminate).
  split; [exact H|].
  exact (proj2 (port_exact_up_to_MAX_SAFE_INTEGER ∅ [6; 5; 5; 3; 5] []
                  ltac:(discriminate) eq_refl eq_refl H)).
Defined.

(** X7: setting one of the four variables changes the field read from it and
    leaves the other three as they were.  An empty DATABASE_URL or REDIS_URL
    is kept as the empty string; an empty NODE_ENV or PORT gives the default. *)
Theorem config_insert_local (env : gmap string (list N)) (v : list N) :
  config (<[ "NODE_ENV" := v ]> env)
  = {| nodeEnv := match v with [] => str "development" | _ => v end;
       port := port (config env);
       databaseUrl := databaseUrl (config env);
       redisUrl := redisUrl (config env) |}
  /\ config (<[ "PORT" := v ]> env)
     = {| nodeEnv := nodeEnv (config env);
          port := match v with [] => ofZ 3000 | _ => parseInt v 10 end;
          databaseUrl := databaseUrl (config env);
          redisUrl := redisUrl (config env) |}
  /\ config (<[ "DATABASE_URL" := v ]> env)
     = {| nodeEnv := nodeEnv (config env);
          port := port (config env);
          databaseUrl := Some v;
          redisUrl := redisUrl (config env) |}
  /\ config (<[ "REDIS_URL" := v ]> env)
     = {| nodeEnv := nodeEnv (config env);
          port := port (config env);
          databaseUrl := databaseUrl (config env);
          redisUrl := Some v |}.
Proof.
  unfold config. rewrite !ConfigFacts.evalConfig_unfold. cbn [fst nodeEnv port databaseUrl redisUrl].
  repeat split; rewrite ?lookup_insert_eq, ?lookup_insert_ne by done;
    destruct v; reflexivity.
Qed.

(** X8: unsetting one of the four variables puts its field back to the
    default, or to absent, and leaves the other three as they were. *)
Theorem config_delete_local (env : gmap string (list N)) :
  config (delete "NODE_ENV" env)
  = {| nodeEnv := str "development";
       port := port (config env);
       databaseUrl := databaseUrl (config env);
       redisUrl := redisUrl (config env) |}
  /\ config (delete "PORT" env)
     = {| nodeEnv := nodeEnv (config env);
          port := ofZ 3000;
          databaseUrl := databaseUrl (config env);
          redisUrl := redisUrl (config env) |}
  /\ config (delete "DATABASE_URL" env)
     = {| nodeEnv := nodeEnv (config env);
          port := port (config env);
          databaseUrl := None;
          redisUrl := redisUrl (config env) |}
  /\ config (delete "REDIS_URL" env)
     = {| nodeEnv := nodeEnv (config env);
          port := port (config env);
          databaseUrl := databaseUrl (config env);
          redisUrl := None |}.
Proof.
  unfold config. rewrite !ConfigFacts.evalConfig_unfold. cbn [fst nodeEnv port databaseUrl redisUrl].
  repeat split; rewrite ?lookup_delete_eq, ?lookup_delete_ne by done;
    reflexivity.
Qed.

(** * More on isValidEmail *)

Module EmailFacts.

Lemma plainChar_not_space (c : N) :
  plainChar c = true -> isWhiteSpace c = false.
Proof.
  unfold plainChar. intros H. apply andb_true_iff in H as [H _].
  apply negb_true_iff, H.
Qed.

Lemma plainChar_not_AT (l : list N) :
  forallb plainChar l = true -> ~ In AT l.
Proof.
  intros H. apply (count_occ_not_In N.eq_dec), plainChar_count_AT, H.
Qed.

Lemma emailShape_length (s : list N) : emailShape s -> (5 <= length s)%nat.
Proof.
  intros (loc & dom & tld & -> & Hloc & Hdom & Htld & _).
  rewrite !length_app. simpl.
  destruct loc, dom, tld; try congruence. simpl. lia.
Qed.

Lemma emailShape_no_space (s : list N) (c : N) :
  emailShape s -> In c s -> isWhiteSpace c = false.
Proof.
  intros (loc & dom & tld & -> & _ & _ & _ & Aloc & Adom & Atld) Hin.
  rewrite forallb_forall in Aloc, Adom, Atld.
  repeat (apply in_app_or in Hin as [Hin|Hin]);
    try (apply plainChar_not_space; auto; fail);
    destruct Hin as [<-|[]]; reflexivity.
Qed.

(** A list splits in one way only around the first occurrence of an
    element. *)
Lemma split_at_first (x : N) (a b c d : list N) :
  a ++ x :: b = c ++ x :: d -> ~ In x a -> ~ In x c -> a = c /\ b = d.
Proof.
  revert c. induction a as [|y a IH]; intros [|z c] E Ha Hc; simpl in *.
  - injection E as <-. auto.
  - injection E as <- _. tauto.
  - injection E as -> _. tauto.
  - injection E as <- E. destruct (IH c E) as [-> ->]; [tauto | tauto | auto].
Qed.

End EmailFacts.

(** X9: an accepted string has at least five code units. *)
Theorem isValidEmail_min_length (email : list N) :
  isValidEmail email = true -> (5 <= length email)%nat.
Proof.
  intros H. apply EmailFacts.emailShape_length.
  apply RegExpFacts.isValidEmail_emailShape, H.
Qed.

(** X9 at [a@b.c]. *)
Lemma isValidEmail_min_length_witness :
  isValidEmail (str "a@b.c") = true /\ (5 <= length (str "a@b.c"))%nat.
Proof.
  split; [reflexivity|]. exact (isValidEmail_min_length (str "a@b.c") eq_refl).
Defined.

(** X10: a string that holds a white space character anywhere, in front or
    at the end included, is rejected: nothing is trimmed. *)
Theorem isValidEmail_rejects_whitespace (email : list N) (c : N) :
  In c email -> isWhiteSpace c = true -> isValidEmail email = false.
Proof.
  intros Hin Hc. destruct (isValidEmail email) eqn:E; [|reflexivity].
  apply RegExpFacts.isValidEmail_emailShape in E.
  rewrite (EmailFacts.emailShape_no_space email c E Hin) in Hc. discriminate.
Qed.

(** X10 at an address followed by a line feed. *)
Lemma isValidEmail_rejects_whitespace_witness :
  In 10%N (str "a@b.c" ++ [10%N]) /\ isWhiteSpace 10 = true
  /\ isValidEmail (str "a@b.c" ++ [10%N]) = false.
Proof.
  assert (Hin : In 10%N (str "a@b.c" ++ [10%N]))
    by (apply in_or_app; right; left; reflexivity).
  split; [exact Hin|]. split; [reflexivity|].
  exact (isValidEmail_rejects_whitespace _ 10%N Hin eq_refl).
Defined.

(** X11: an accepted string stays accepted when a character that is neither
    white space nor [@] (a dot, for one) is put in front of it or after it. *)
Theorem isValidEmail_extend (email : list N) (c : N) :
  isValidEmail email = true -> plainChar c = true ->
  isValidEmail (c :: email) = true /\ isValidEmail (email ++ [c]) = true.
Proof.
  intros H Hc. apply RegExpFacts.isValidEmail_emailShape in H.
  destruct H as (loc & dom & tld & -> & Hloc & Hdom & Htld & Aloc & Adom & Atld).
  split; apply RegExpFacts.isValidEmail_emailShape.
  - exists (c :: loc), dom, tld. cbn [forallb]. rewrite Hc, Aloc.
    repeat split; try assumption; discriminate.
  - exists loc, dom, (tld ++ [c]).
    rewrite forallb_app. cbn [forallb]. rewrite Atld, Hc.
    repeat split; try assumption.
    + rewrite <- !app_assoc. reflexivity.
    + destruct tld; discriminate.
Qed.

(** X11 at a dot around [a@b.c]. *)
Lemma isValidEmail_extend_witness :
  plainChar DOT = true
  /\ isValidEmail (DOT :: str "a@b.c") = true
  /\ isValidEmail (str "a@b.c" ++ [DOT]) = true.
Proof.
  split; [reflexivity|].
  exact (isValidEmail_extend (str "a@b.c") DOT eq_refl eq_refl).
Defined.

(** X12: wherever the [@] of an accepted string stands, something precedes
    it, and what follows it has a dot with at least one character on each
    side; so a string with no dot after its [@] is rejected. *)
Theorem isValidEmail_around_AT (pre post : list N) :
  isValidEmail (pre ++ [AT] ++ post) = true ->
  pre <> []
  /\ (exists dom tld, post = dom ++ [DOT] ++ tld /\ dom <> [] /\ tld <> [])
  /\ In DOT post.
Proof.
  intros H. pose proof H as Hshape.
  apply RegExpFacts.isValidEmail_emailShape in Hshape.
  pose proof (emailShape_one_AT _ Hshape) as Hcount.
  destruct Hshape as (loc & dom & tld & E & Hloc & Hdom & Htld & Aloc & _).
  rewrite !count_occ_app in Hcount. simpl in Hcount.
  assert (Hpre : ~ In AT pre) by (apply (count_occ_not_In N.eq_dec); lia).
  destruct (EmailFacts.split_at_first AT pre post loc (dom ++ [DOT] ++ tld))
    as [-> ->]; [exact E | exact Hpre | apply EmailFacts.plainChar_not_AT, Aloc |].
  split; [exact Hloc|]. split; [eauto|].
  apply in_or_app. right. left. reflexivity.
Qed.

(** X12 at [a@b.c]. *)
Lemma isValidEmail_around_AT_witness :
  isValidEmail (str "a" ++ [AT] ++ str "b.c") = true
  /\ In DOT (str "b.c").
Proof.
  split; [reflexivity|].
  exact (proj2 (proj2 (isValidEmail_around_AT (str "a") (str "b.c") eq_refl))).
Defined.

(** * More on add *)

Module AddFacts.

Lemma binary_round_not_NaN (s : bool) (m : positive) (e : Z) :
  isNaN (binary_round prec emax s m e) = false.
Proof.
  unfold binary_round. destruct (shl_align m e _) as [mz ez].
  apply NumberFacts.binary_round_aux_not_NaN. lia.
Qed.

Lemma binary_normalize_not_NaN (m e : Z) (szero : bool) :
  isNaN (binary_normalize prec emax m e szero) = false.
Proof.
  destruct m; [reflexivity | apply binary_round_not_NaN..].
Qed.

(** A rounded mantissa keeps the sign it was given. *)
Lemma binary_round_aux_signBit (s : bool) (m e : Z) (l : location) :
  0 <= m -> signBit (binary_round_aux prec emax s m e l) = Some s.
Proof.
  intros H. unfold binary_round_aux.
  pose proof (NumberFacts.shr_fexp_nonneg m e l H) as H1.
  destruct (shr_fexp prec emax m e l) as [mrs' e']. simpl in H1.
  pose proof (NumberFacts.shr_fexp_nonneg _ e' loc_Exact
                (NumberFacts.round_nearest_even_nonneg _
                   (loc_of_shr_record mrs') H1)) as H2.
  destruct (shr_fexp prec emax _ e' loc_Exact) as [mrs'' e'']. simpl in H2.
  destruct (shr_m mrs'') as [|q|q]; [reflexivity | | lia].
  destruct (e'' <=? emax - prec); reflexivity.
Qed.

Lemma binary_round_signBit (s : bool) (m : positive) (e : Z) :
  signBit (binary_round prec emax s m e) = Some s.
Proof.
  unfold binary_round. destruct (shl_align m e _) as [mz ez].
  apply binary_round_aux_signBit. lia.
Qed.

End AddFacts.

(** X13: [add] gives NaN in three cases only: the first argument is NaN, the
    second is, or they are the two infinities of opposite signs.  The sum of
    finite numbers may overflow to an infinity but is never NaN. *)
Theorem add_NaN_iff (x y : number) :
  isNaN (add x y) = true <->
  isNaN x = true \/ isNaN y = true
  \/ exists s : bool, x = S754_infinity s /\ y = S754_infinity (negb s).
Proof.
  unfold add, plus. split.
  - destruct x as [sx|sx| |sx mx ex], y as [sy|sy| |sy my ey];
      try (intros _; left; reflexivity);
      try (intros _; right; left; reflexivity);
      try (destruct sx, sy; discriminate).
    + destruct sx, sy; try discriminate; intros _; right; right.
      * exists true. auto.
      * exists false. auto.
    + unfold SFadd. rewrite AddFacts.binary_normalize_not_NaN. discriminate.
  - intros [H | [H | (s & -> & ->)]].
    + destruct x; try discriminate. reflexivity.
    + destruct y; try discriminate. destruct x as [[]|[]| |]; reflexivity.
    + destruct s; reflexivity.
Qed.

(** X14: the sum of two numbers of the same sign has that sign: a sum that
    is too large becomes the infinity of that sign and never comes back with
    the other one. *)
Theorem add_same_sign (x y : number) (s : bool) :
  signBit x = Some s -> signBit y = Some s -> signBit (add x y) = Some s.
Proof.
  unfold add, plus.
  destruct x as [sx|sx| |sx mx ex], y as [sy|sy| |sy my ey];
    try discriminate; simpl signBit; intros Hx Hy;
    injection Hx as ->; injection Hy as ->; try (destruct s; reflexivity).
  unfold SFadd, binary_normalize.
  set (a := Z.pos (fst (shl_align mx ex (Z.min ex ey)))).
  set (b := Z.pos (fst (shl_align my ey (Z.min ex ey)))).
  assert (Ha : 0 < a) by (unfold a; lia).
  assert (Hb : 0 < b) by (unfold b; lia).
  destruct s; simpl cond_Zopp.
  - destruct (- a + - b) as [|p|p] eqn:E; try lia.
    apply AddFacts.binary_round_signBit.
  - destruct (a + b) as [|p|p] eqn:E; try lia.
    apply AddFacts.binary_round_signBit.
Qed.

(** X14 at the largest finite number added to itself. *)
Lemma add_same_sign_witness :
  signBit (S754_finite false 9007199254740991 971) = Some false
  /\ add (S754_finite false 9007199254740991 971)
         (S754_finite false 9007199254740991 971) = S754_infinity false
  /\ signBit (add (S754_finite false 9007199254740991 971)
                  (S754_finite false 9007199254740991 971)) = Some false.
Proof.
  split; [reflexivity|]. split; [vm_compute; reflexivity|].
  exact (add_same_sign (S754_finite false 9007199254740991 971)
           (S754_finite false 9007199254740991 971) false eq_refl eq_refl).
Defined.

(** X15: the sum of two numbers with opposite values other than zero is
    [+0], never [-0]. *)
Theorem add_opposite_values (x y : number) (a : Z) :
  valid x -> valid y ->
  scaled x = Some a -> scaled y = Some (- a) -> a <> 0 ->
  add x y = S754_zero false.
Proof.
  unfold valid, add.
  destruct x as [sx|sx| |sx mx ex], y as [sy|sy| |sy my ey];
    try discriminate; cbn [valid_binary]; intros Vx Vy Ex Ey Ha.
  - injection Ex as <-. congruence.
  - injection Ex as <-. congruence.
  - injection Ey as Ey. lia.
  - rewrite NumberFacts.scaled_finite in Ex, Ey.
    injection Ex as Ex. injection Ey as Ey.
    apply NumberFacts.plus_finite_zero; [exact Vx | exact Vy | lia].
Qed.

(** X15 at 1 and -1. *)
Lemma add_opposite_values_witness :
  scaled (ofZ 1) = Some (2 ^ 1074)
  /\ scaled (ofZ (-1)) = Some (- 2 ^ 1074)
  /\ add (ofZ 1) (ofZ (-1)) = S754_zero false.
Proof.
  split; [vm_compute; reflexivity|]. split; [vm_compute; reflexivity|].
  apply (add_opposite_values (ofZ 1) (ofZ (-1)) (2 ^ 1074));
    try (vm_compute; reflexivity).
  vm_compute. discriminate.
Defined.
